(** * file-validator: the record validation pipeline of [utility.ts]

    A shallow embedding of the record ingestion, normalisation and
    validation pipeline ([sanitizeKeys], [validateEndBalance],
    [reorderRecordForXml], [formatZodErrors], [processFile], [parseCsv],
    [parseXml]), of the schemas [accountRecordSchema] and [fileSchema] and
    of the handlers of [FileUploader.tsx], together with the
    part of the JavaScript runtime and of the zod library they run on. *)

From Stdlib Require Import QArith Qabs Qround Qpower.
From Stdlib Require Import List String Ascii Bool Arith ZArith NArith Lia.
From Stdlib Require Import Permutation DecimalString DecimalN.
From Stdlib Require Import SpecFloat.
Import ListNotations.
Close Scope Q_scope.
Open Scope string_scope.

(** ** The JavaScript runtime the pipeline runs on

    Strings, Numbers and ordinary objects with the operations of
    ECMAScript that the pipeline calls. *)

Module JS.

(** *** Strings

    A string is a sequence of code units.  Rocq's [string] gives the code
    units U+0000 to U+00FF, and every function below agrees with ECMAScript
    on all of them. *)

(** The characters matched by the regular expression class [\s]
    (WhiteSpace and LineTerminator) below U+0100: TAB, LF, VT, FF, CR,
    SPACE and NO-BREAK SPACE. *)
Definition is_whitespace (c : ascii) : bool :=
  let n := N_of_ascii c in
  (((9 <=? n) && (n <=? 13)) || (n =? 32) || (n =? 160))%N.

(** [s.replace(/\s+/g, "")]: every run of whitespace is deleted. *)
Fixpoint remove_whitespace (s : string) : string :=
  match s with
  | EmptyString => EmptyString
  | String c r =>
      if is_whitespace c then remove_whitespace r
      else String c (remove_whitespace r)
  end.

(** The lower-case mapping of one code unit below U+0100: [A]-[Z] and the
    capital letters U+00C0 to U+00DE (U+00D7, the multiplication sign,
    apart). *)
Definition lower_char (c : ascii) : ascii :=
  let n := N_of_ascii c in
  if (((65 <=? n) && (n <=? 90))
      || ((192 <=? n) && (n <=? 222) && negb (n =? 215)))%N
  then ascii_of_N (n + 32) else c.

Fixpoint toLowerCase (s : string) : string :=
  match s with
  | EmptyString => EmptyString
  | String c r => String (lower_char c) (toLowerCase r)
  end.

(** [s.charAt(0)]: the first code unit as a string, empty on the empty
    string. *)
Definition charAt0 (s : string) : string :=
  match s with
  | EmptyString => EmptyString
  | String c _ => String c EmptyString
  end.

(** [s.slice(1)]. *)
Definition slice1 (s : string) : string :=
  match s with
  | EmptyString => EmptyString
  | String _ r => r
  end.

(** [parts.join(sep)]. *)
Fixpoint join (sep : string) (parts : list string) : string :=
  match parts with
  | [] => EmptyString
  | [p] => p
  | p :: rest => p ++ sep ++ join sep rest
  end.

(** [s.startsWith(p)] is [String.prefix p s]. *)

(** *** Numbers

    A Number is an IEEE 754 binary64 value: [spec_float] at precision 53
    and maximal exponent 1024, a finite value [S754_finite s m e] being
    (-1)^s * m * 2^e. *)

Definition number := spec_float.
Definition prec : Z := 53.
Definition emax : Z := 1024.

Definition NaN : number := S754_nan.
Definition Infinity : number := S754_infinity false.

(** The Number of a mathematical integer. *)
Definition of_Z (z : Z) : number := binary_normalize prec emax z 0 false.

(** [x + y]. *)
Definition add (x y : number) : number := SFadd prec emax x y.

(** [Number.isNaN], [Number.isFinite]. *)
Definition isNaN (x : number) : bool :=
  match x with S754_nan => true | _ => false end.

Definition isFinite (x : number) : bool :=
  match x with S754_zero _ | S754_finite _ _ _ => true | _ => false end.

(** [Number.isInteger]: a finite value whose mantissa carries no bit below
    the unit. *)
Definition isInteger (x : number) : bool :=
  match x with
  | S754_zero _ => true
  | S754_finite _ m e =>
      (0 <=? e)%Z || (Z.land (Zpos m) (Z.ones (- e)) =? 0)%Z
  | _ => false
  end.

(** The mathematical value of an integral Number. *)
Definition to_Z (x : number) : Z :=
  match x with
  | S754_finite s m e => cond_Zopp s (Z.shiftl (Zpos m) e)
  | _ => 0%Z
  end.

Definition MAX_SAFE_INTEGER : Z := 9007199254740991.
Definition MIN_SAFE_INTEGER : Z := -9007199254740991.

(** [Number.isSafeInteger]. *)
Definition isSafeInteger (x : number) : bool :=
  isInteger x
  && (MIN_SAFE_INTEGER <=? to_Z x)%Z && (to_Z x <=? MAX_SAFE_INTEGER)%Z.

(** [x < y], [x > y], [x >= y]: false whenever an operand is NaN. *)
Definition lt (x y : number) : bool := SFltb x y.
Definition gt (x y : number) : bool := SFltb y x.
Definition ge (x y : number) : bool := SFleb y x.

(** Structural equality of Numbers, as a boolean. *)
Definition number_eqb (x y : number) : bool :=
  match x, y with
  | S754_zero a, S754_zero b => Bool.eqb a b
  | S754_infinity a, S754_infinity b => Bool.eqb a b
  | S754_nan, S754_nan => true
  | S754_finite a m e, S754_finite b n f =>
      Bool.eqb a b && Pos.eqb m n && Z.eqb e f
  | _, _ => false
  end.

(** The Number nearest to the rational [p / q] ([0 <= p], [0 < q]) with
    sign [s], ties to even: the quotient with its rounding location, then
    the rounding of IEEE 754 division. *)
Definition round_ratio (s : bool) (p q : Z) : number :=
  if (p =? 0)%Z then S754_zero s
  else
    let '(mz, ez, lz) := SFdiv_core_binary prec emax p 0 q 0 in
    binary_round_aux prec emax s mz ez lz.

(** [m * 10^x] as a ratio of two integers. *)
Definition decimal_ratio (m x : Z) : Z * Z :=
  if (0 <=? x)%Z then (m * 10 ^ x, 1)%Z else (m, 10 ^ (- x))%Z.

(** The exact value of the magnitude of a finite Number, as a ratio. *)
Definition magnitude_ratio (x : number) : Z * Z :=
  match x with
  | S754_finite _ m e =>
      if (0 <=? e)%Z then (Zpos m * 2 ^ e, 1)%Z else (Zpos m, 2 ^ (- e))%Z
  | _ => (0, 1)%Z
  end.

(** *** StringToNumber *)

Definition is_digit (c : ascii) : bool :=
  let n := N_of_ascii c in ((48 <=? n) && (n <=? 57))%N.

(** The value of a digit of a literal in a radix up to 16, if it is one. *)
Definition digit_in (radix : Z) (c : ascii) : option Z :=
  let n := Z.of_N (N_of_ascii c) in
  let d :=
    if ((48 <=? n) && (n <=? 57))%Z then Some (n - 48)%Z
    else if ((97 <=? n) && (n <=? 102))%Z then Some (n - 87)%Z
    else if ((65 <=? n) && (n <=? 70))%Z then Some (n - 55)%Z
    else None in
  match d with
  | Some v => if (v <? radix)%Z then Some v else None
  | None => None
  end.

(** The digits of a whole literal, most significant first; [None] when a
    character is not a digit of the radix. *)
Fixpoint digits_value (radix : Z) (l : list ascii) (acc : Z) : option Z :=
  match l with
  | [] => Some acc
  | c :: r =>
      match digit_in radix c with
      | Some v => digits_value radix r (acc * radix + v)%Z
      | None => None
      end
  end.

(** The longest run of decimal digits at the front, and what follows. *)
Fixpoint span_digits (l : list ascii) : list ascii * list ascii :=
  match l with
  | c :: r =>
      if is_digit c then let '(d, rest) := span_digits r in (c :: d, rest)
      else ([], l)
  | [] => ([], [])
  end.

Fixpoint trim_start (l : list ascii) : list ascii :=
  match l with
  | c :: r => if is_whitespace c then trim_start r else l
  | [] => []
  end.

Definition trim (l : list ascii) : list ascii :=
  rev (trim_start (rev (trim_start l))).

Definition decimal_value (l : list ascii) : Z :=
  match digits_value 10 l 0 with Some v => v | None => 0%Z end.

(** ExponentPart, optional: the exponent and the rest; [None] when an
    exponent indicator is not followed by a signed integer. *)
Definition parse_exponent (l : list ascii) : option (Z * list ascii) :=
  match l with
  | c :: r =>
      if (Ascii.eqb c "e" || Ascii.eqb c "E")%bool then
        let '(neg, r1) :=
          match r with
          | s :: r' =>
              if Ascii.eqb s "-" then (true, r')
              else if Ascii.eqb s "+" then (false, r') else (false, r)
          | [] => (false, r)
          end in
        match span_digits r1 with
        | ([], _) => None
        | (d, rest) => Some (cond_Zopp neg (decimal_value d), rest)
        end
      else Some (0%Z, l)
  | [] => Some (0%Z, [])
  end.

(** StrUnsignedDecimalLiteral, [Infinity] apart: the literal as
    [mantissa * 10^exponent]. *)
Definition parse_unsigned_decimal (l : list ascii) : option (Z * Z) :=
  let '(int_part, r1) := span_digits l in
  let '(dot, frac_part, r2) :=
    match r1 with
    | c :: r =>
        if Ascii.eqb c "." then
          let '(f, r') := span_digits r in (true, f, r')
        else (false, [], r1)
    | [] => (false, [], r1)
    end in
  match int_part, frac_part with
  | [], [] => None
  | _, _ =>
      match parse_exponent r2 with
      | Some (x, []) =>
          Some (decimal_value (int_part ++ frac_part)%list,
                (x - Z.of_nat (List.length frac_part))%Z)
      | _ => None
      end
  end.

(** NonDecimalIntegerLiteral: [0x], [0o] and [0b] literals, unsigned. *)
Definition parse_non_decimal (l : list ascii) : option Z :=
  match l with
  | z :: p :: (_ :: _) as d =>
      if Ascii.eqb z "0" then
        if (Ascii.eqb p "x" || Ascii.eqb p "X")%bool then digits_value 16 d 0
        else if (Ascii.eqb p "o" || Ascii.eqb p "O")%bool then digits_value 8 d 0
        else if (Ascii.eqb p "b" || Ascii.eqb p "B")%bool then digits_value 2 d 0
        else None
      else None
  | _ => None
  end.

Definition Infinity_literal : list ascii := list_ascii_of_string "Infinity".

(** StringToNumber: the Number of a string, NaN when the string is not a
    StringNumericLiteral. *)
Definition StringToNumber (str : string) : number :=
  let l := trim (list_ascii_of_string str) in
  match l with
  | [] => S754_zero false
  | c :: r =>
      match parse_non_decimal l with
      | Some v => round_ratio false v 1
      | None =>
          let '(neg, body) :=
            if Ascii.eqb c "-" then (true, r)
            else if Ascii.eqb c "+" then (false, r) else (false, l) in
          if list_eq_dec Ascii.ascii_dec body Infinity_literal
          then S754_infinity neg
          else
            match parse_unsigned_decimal body with
            | Some (m, x) =>
                let '(p, q) := decimal_ratio m x in round_ratio neg p q
            | None => S754_nan
            end
      end
  end.

(** *** Number::toString and Number.prototype.toFixed *)

(** The decimal digits of a natural number, ["0"] for zero. *)
Definition decimal_string (n : Z) : string :=
  NilEmpty.string_of_uint (N.to_uint (Z.to_N n)).

Fixpoint zeros (n : nat) : string :=
  match n with O => EmptyString | S k => String "0" (zeros k) end.

(** [s.substring(0, n)] and [s.substring(n)]. *)
Fixpoint take (n : nat) (s : string) : string :=
  match n, s with
  | S k, String c r => String c (take k r)
  | _, _ => EmptyString
  end.

Fixpoint drop (n : nat) (s : string) : string :=
  match n, s with
  | S k, String _ r => drop k r
  | _, _ => s
  end.

(** The integers next to [p / q], and the one nearer to it first (the
    even one when [p / q] is half-way). *)
Definition nearest_integers (p q : Z) : list Z :=
  let f := (p / q)%Z in
  let r := (p mod q)%Z in
  if (r =? 0)%Z then [f]
  else
    match (2 * r ?= q)%Z with
    | Lt => [f; f + 1]%Z
    | Gt => [f + 1; f]%Z
    | Eq => if Z.even f then [f; f + 1]%Z else [f + 1; f]%Z
    end.

(** The digit strings of length [k] whose value, scaled by [10^(n-k)],
    is the Number [x] (finite, positive), nearest first. *)
Definition digit_candidates (x : number) (n k : Z) : list Z :=
  let '(p, q) := magnitude_ratio x in
  let '(sp, sq) := decimal_ratio 1 (n - k) in
  filter
    (fun s =>
       (10 ^ (k - 1) <=? s)%Z && (s <? 10 ^ k)%Z &&
       (let '(a, b) := decimal_ratio s (n - k) in
        number_eqb (round_ratio false a b) (SFabs x)))
    (nearest_integers (p * sq) (q * sp)).

(** The integers from [a], [len] of them. *)
Fixpoint Zrange (a : Z) (len : nat) : list Z :=
  match len with O => [] | S l => a :: Zrange (a + 1) l end.

(** The first element of a list on which [f] answers. *)
Fixpoint find_map {A B : Type} (f : A -> option B) (l : list A) : option B :=
  match l with
  | [] => None
  | a :: r => match f a with Some b => Some b | None => find_map f r end
  end.

(** Step 5 of Number::toString: [n], [k] and [s] with [k >= 1],
    [10^(k-1) <= s < 10^k], the Number of [s * 10^(n-k)] being [x], and
    [k] as small as possible (a binary64 value needs 17 digits at most).
    The decimal exponent [n] is looked for around that of the binary
    exponent. *)
Definition shortest_digits (x : number) : option (Z * Z * Z) :=
  match x with
  | S754_finite _ m e =>
      let b := (Zpos (digits2_pos m) + e)%Z in
      let t := (b * 30103 / 100000)%Z in
      find_map
        (fun k =>
           find_map
             (fun n =>
                match digit_candidates x n k with
                | s :: _ => Some (n, k, s)
                | [] => None
                end)
             (Zrange (t - 2) 7))
        (Zrange 1 17)
  | _ => None
  end.

(** Number::toString in radix 10. *)
Definition ToString (x : number) : string :=
  match x with
  | S754_nan => "NaN"
  | S754_zero _ => "0"
  | S754_infinity s => if s then "-Infinity" else "Infinity"
  | S754_finite sg _ _ =>
      let sign := if sg then "-" else "" in
      match shortest_digits x with
      | None => sign
      | Some (n, k, s) =>
          let d := decimal_string s in
          sign ++
          (if ((k <=? n) && (n <=? 21))%Z then d ++ zeros (Z.to_nat (n - k))
           else if ((0 <? n) && (n <=? 21))%Z then
             take (Z.to_nat n) d ++ "." ++ drop (Z.to_nat n) d
           else if ((-6 <? n) && (n <=? 0))%Z then
             "0." ++ zeros (Z.to_nat (- n)) ++ d
           else
             let x := (n - 1)%Z in
             let xs := (if (x <? 0)%Z then "-" else "+")
                       ++ decimal_string (Z.abs x) in
             if (k =? 1)%Z then d ++ "e" ++ xs
             else take 1 d ++ "." ++ drop 1 d ++ "e" ++ xs)
      end
  end.

(** The integer [n] for which [n / 100 - p / q] is as close to zero as
    possible, the larger one when there are two. *)
Definition hundredths (p q : Z) : Z := ((200 * p + q) / (2 * q))%Z.

(** The digits of [n] with a point before the last two, padded with
    zeros to three digits at least. *)
Definition two_decimals (n : Z) : string :=
  let m := decimal_string n in
  let m := zeros (3 - String.length m) ++ m in
  let k := String.length m in
  take (k - 2) m ++ "." ++ drop (k - 2) m.

(** [x.toFixed(2)]. *)
Definition toFixed2 (x : number) : string :=
  match x with
  | S754_zero _ => "0.00"
  | S754_finite sg _ _ =>
      let sign := if sg then "-" else "" in
      let '(p, q) := magnitude_ratio x in
      if (10 ^ 21 * q <=? p)%Z then ToString x
      else sign ++ two_decimals (hundredths p q)
  | _ => ToString x
  end.

(** *** Values and objects *)

(** The values a field holds: a string or a number, and [undefined] for
    a field that is read but absent. *)
Inductive value : Type :=
  | VUndefined
  | VString (s : string)
  | VNumber (n : number).

(** [Number(v)]. *)
Definition Number (v : value) : number :=
  match v with
  | VUndefined => NaN
  | VString s => StringToNumber s
  | VNumber n => n
  end.

(** SameValueZero, the equality of [Set.prototype.has]: NaN equals NaN
    and +0 equals -0. *)
Definition SameValueZero (a b : value) : bool :=
  match a, b with
  | VUndefined, VUndefined => true
  | VString s, VString t => String.eqb s t
  | VNumber x, VNumber y =>
      match x, y with
      | S754_zero _, S754_zero _ => true
      | _, _ => number_eqb x y
      end
  | _, _ => false
  end.

(** An ordinary object: its own enumerable properties in the order
    [for ... in], [Object.keys] and spread visit them.  The keys of an
    object are pairwise distinct; OrdinaryOwnPropertyKeys lists the array
    indices first, in ascending numeric order, then the other keys in
    the order they were created. *)
Definition object := list (string * value).

Definition keys (o : object) : list string := map fst o.

(** An array index is the canonical decimal string of an integer from 0
    to 2^32 - 2. *)
Definition array_index (k : string) : option Z :=
  match list_ascii_of_string k with
  | [] => None
  | c :: r =>
      if (Ascii.eqb c "0" && negb (Nat.eqb (List.length r) 0))%bool then None
      else
        match digits_value 10 (c :: r) 0 with
        | Some n => if (n <? 4294967295)%Z then Some n else None
        | None => None
        end
  end.

(** [o[k]], [o.k]: [undefined] when [o] has no property [k] (the keys
    read here are not properties of [Object.prototype]). *)
Fixpoint get (o : object) (k : string) : value :=
  match o with
  | [] => VUndefined
  | (k', v) :: r => if String.eqb k k' then v else get r k
  end.

Definition has_key (k : string) (o : object) : bool :=
  existsb (fun p => String.eqb k (fst p)) o.

(** The value of an existing property changes in place. *)
Fixpoint update (k : string) (v : value) (o : object) : object :=
  match o with
  | [] => []
  | (k', v') :: r =>
      if String.eqb k k' then (k', v) :: r else (k', v') :: update k v r
  end.

(** A new array index goes before the first key that is a larger index
    or no index at all. *)
Fixpoint insert_index (i : Z) (k : string) (v : value) (o : object)
  : object :=
  match o with
  | [] => [(k, v)]
  | (k', v') :: r =>
      match array_index k' with
      | Some j =>
          if (i <? j)%Z then (k, v) :: o
          else (k', v') :: insert_index i k v r
      | None => (k, v) :: o
      end
  end.

(** CreateDataProperty: what an object literal and a spread do for each
    property. *)
Definition define (k : string) (v : value) (o : object) : object :=
  if has_key k o then update k v o
  else
    match array_index k with
    | Some i => insert_index i k v o
    | None => (o ++ [(k, v)])%list
    end.

(** The assignment [o[k] = v] of a string or a number.  The key
    [__proto__], when [o] has no own property of that name, reaches the
    setter on [Object.prototype], which ignores a value that is no
    object: nothing is stored. *)
Definition assign (k : string) (v : value) (o : object) : object :=
  if (String.eqb k "__proto__" && negb (has_key k o))%bool then o
  else define k v o.

(** [{ ...src }] on top of the properties [o] already written. *)
Definition spread (src : object) (o : object) : object :=
  fold_left (fun acc p => define (fst p) (snd p) acc) src o.

(** The rest of a destructuring pattern [{ k, ...rest } = o]. *)
Definition without (k : string) (o : object) : object :=
  filter (fun p => negb (String.eqb k (fst p))) o.

End JS.

Import JS.

(** ** The part of zod that [accountRecordSchema] uses

    The library at version 4, whose messages are the ones that
    [utility.test.ts] expects: the schemas [z.string()] and
    [z.coerce.number()], the checks [.int()] and [.nonnegative()], and
    [z.object(...).safeParse]. *)

Module Zod.

(** What an issue reports, before its message is rendered. *)
Inductive issue_code : Type :=
  | invalid_type (expected : string) (input : value)
  | too_small (origin : string) (minimum : Z) (inclusive : bool)
  | too_big (origin : string) (maximum : Z) (inclusive : bool).

(** An issue as a check raises it: [continues] is false when the issue
    aborts the checks that follow. *)
Record raw_issue : Type := { code : issue_code; continues : bool }.

(** A check of a number schema. *)
Definition check : Type := number -> list raw_issue.

(** [.int()]: an integer, within the safe range; the two bounds of the
    range are reported as inclusive. *)
Definition int : check := fun input =>
  if negb (isInteger input) then
    [ {| code := invalid_type "int" (VNumber input); continues := false |} ]
  else if negb (isSafeInteger input) then
    if gt input (S754_zero false) then
      [ {| code := too_big "int" MAX_SAFE_INTEGER true; continues := true |} ]
    else
      [ {| code := too_small "int" MIN_SAFE_INTEGER true; continues := true |} ]
  else [].

(** [.nonnegative()], that is [.gte(0)]. *)
Definition nonnegative : check := fun input =>
  if ge input (S754_zero false) then []
  else [ {| code := too_small "number" 0 true; continues := true |} ].

(** The schemas of the fields. *)
Inductive schema : Type :=
  | string_schema
  | number_schema (coerce : bool) (checks : list check).

Definition aborted (issues : list raw_issue) : bool :=
  existsb (fun i => negb (continues i)) issues.

(** The checks run in order; once an issue aborts, the rest is skipped. *)
Fixpoint run_checks (checks : list check) (input : number)
  (issues : list raw_issue) : list raw_issue :=
  match checks with
  | [] => issues
  | ch :: rest =>
      if aborted issues then run_checks rest input issues
      else run_checks rest input (issues ++ ch input)%list
  end.

(** The issues of one field. *)
Definition parse_field (s : schema) (input : value) : list raw_issue :=
  match s with
  | string_schema =>
      match input with
      | VString _ => []
      | _ => [ {| code := invalid_type "string" input; continues := false |} ]
      end
  | number_schema coerce checks =>
      let input := if coerce then VNumber (Number input) else input in
      match input with
      | VNumber n =>
          if (negb (isNaN n) && isFinite n)%bool then run_checks checks n []
          else [ {| code := invalid_type "number" input; continues := false |} ]
      | _ => [ {| code := invalid_type "number" input; continues := false |} ]
      end
  end.

(** An issue of a [ZodError]. *)
Record ZodIssue : Type :=
  { issue : issue_code; path : list string; message : string }.

Record ZodError : Type := { issues : list ZodIssue }.

(** The result of [safeParse]; the parsed data of a success is not used
    by the pipeline and is left out. *)
Inductive SafeParseResult : Type :=
  | parse_success
  | parse_failure (error : ZodError).

Definition success (r : SafeParseResult) : bool :=
  match r with parse_success => true | parse_failure _ => false end.

(** [z.object(shape).safeParse(input)] on an object: every field of the
    shape is parsed, in the order of the shape, and its issues are
    reported under its key; [localeError] renders the messages. *)
Definition object_issues (localeError : issue_code -> string)
  (shape : list (string * schema)) (input : object) : list ZodIssue :=
  flat_map
    (fun f =>
       map (fun i => {| issue := code i; path := [fst f];
                        message := localeError (code i) |})
           (parse_field (snd f) (get input (fst f))))
    shape.

Definition safeParse (localeError : issue_code -> string)
  (shape : list (string * schema)) (input : object) : SafeParseResult :=
  match object_issues localeError shape input with
  | [] => parse_success
  | l => parse_failure {| issues := l |}
  end.

(** The messages of the English locale, the default one. *)
Definition parsedType (v : value) : string :=
  match v with
  | VUndefined => "undefined"
  | VString _ => "string"
  | VNumber n =>
      if isNaN n then "NaN" else if isFinite n then "number" else "Infinity"
  end.

Definition bound_string (z : Z) : string :=
  ((if (z <? 0)%Z then "-" else "") ++ decimal_string (Z.abs z))%string.

Definition en (c : issue_code) : string :=
  match c with
  | invalid_type expected input =>
      "Invalid input: expected " ++ expected ++ ", received " ++ parsedType input
  | too_small origin minimum inclusive =>
      "Too small: expected " ++ origin ++ " to be "
        ++ (if inclusive then ">=" else ">") ++ bound_string minimum
  | too_big origin maximum inclusive =>
      "Too big: expected " ++ origin ++ " to be "
        ++ (if inclusive then "<=" else "<") ++ bound_string maximum
  end.

End Zod.

(** ** [schema.ts] *)

Definition accountRecordSchema : list (string * Zod.schema) :=
  [ ("reference", Zod.number_schema true [Zod.int; Zod.nonnegative]);
    ("accountNumber", Zod.string_schema);
    ("startBalance", Zod.number_schema true []);
    ("mutation", Zod.number_schema true []);
    ("endBalance", Zod.number_schema true []);
    ("description", Zod.string_schema) ].

(** [name.split(".")]: the pieces of [name] between the separators, one
    more than there are separators. *)
Fixpoint String_split (sep : ascii) (s : string) : list string :=
  match s with
  | EmptyString => [EmptyString]
  | String c r =>
      if Ascii.eqb c sep then EmptyString :: String_split sep r
      else
        match String_split sep r with
        | h :: t => String c h :: t
        | [] => [String c EmptyString]
        end
  end.

(** [pieces.pop()]: the last piece, [None] ([undefined]) on no piece. *)
Fixpoint Array_pop (pieces : list string) : option string :=
  match pieces with
  | [] => None
  | [p] => Some p
  | _ :: rest => Array_pop rest
  end.

(** [s.endsWith(suffix)]. *)
Definition endsWith (s suffix : string) : bool :=
  let n := String.length s in
  let m := String.length suffix in
  (m <=? n)%nat && String.eqb (drop (n - m) s) suffix.

Definition validExtensions : list string := ["csv"; "xml"].

(** The refinement of [fileSchema] on [originalname]: the truth value of
    [ext && validExtensions.includes(ext)]. *)
Definition fileSchema_refine (name : string) : bool :=
  match Array_pop (String_split "." name) with
  | None => false
  | Some piece =>
      let ext := toLowerCase piece in
      negb (String.eqb ext "") && existsb (String.eqb ext) validExtensions
  end.

Definition fileSchema_message : string :=
  "Unsupported file type. Only CSV and XML files are accepted".

(** [fileSchema.parse({ originalname })]: the messages of the issues of
    the [ZodError] it throws, none when it returns. *)
Definition fileSchema_parse (originalname : string) : list string :=
  if fileSchema_refine originalname then [] else [fileSchema_message].

(** ** [utility.ts] *)

(** The key of [sanitizeKeys]: whitespace removed, first character in
    lower case. *)
Definition sanitizeKey (key : string) : string :=
  let trimmedKey := remove_whitespace key in
  toLowerCase (charAt0 trimmedKey) ++ slice1 trimmedKey.

(** [sanitizeKeys]: the loop over the keys of [record], each writing its
    value under the sanitized key of the new object. *)
Definition sanitizeKeys (record : object) : object :=
  fold_left
    (fun sanitizeRecord p => assign (sanitizeKey (fst p)) (snd p) sanitizeRecord)
    record [].

(** [validateEndBalance]: [None] is [null]. *)
Definition validateEndBalance (record : object) : option string :=
  let startBalance := Number (get record "startBalance") in
  let mutation := Number (get record "mutation") in
  let endBalance := Number (get record "endBalance") in
  if (isNaN startBalance || isNaN mutation || isNaN endBalance)%bool then
    Some "Invalid number format for balance or mutation."
  else
    let calculatedEndBalance := add startBalance mutation in
    if negb (String.eqb (toFixed2 calculatedEndBalance) (toFixed2 endBalance))
    then
      Some ("Mismatching end balance: Expected: "
              ++ ToString calculatedEndBalance
              ++ ", Received: " ++ ToString endBalance)
    else None.

(** [reorderRecordForXml]: [reference] is written first, the rest of
    the properties after it. *)
Definition reorderRecordForXml (record : object) : object :=
  let reference := get record "reference" in
  let rest := spread (without "reference" record) [] in
  spread rest (define "reference" reference []).

(** [formatZodErrors]. *)
Definition formatZodErrors (error : Zod.ZodError) : string :=
  join " | "
    (map (fun issue =>
            "Field - " ++ join "." (Zod.path issue)
              ++ " Error - " ++ Zod.message issue)
         (Zod.issues error)).

(** The error record [{ ...arrangedRecord, errors }]. *)
Definition errorRecord (arrangedRecord : object) (errors : string) : object :=
  define "errors" (VString errors) (spread arrangedRecord []).

(** A [Set] of references: the values added so far. *)
Definition Set_has (s : list value) (v : value) : bool :=
  existsb (SameValueZero v) s.

Definition Set_add (s : list value) (v : value) : list value :=
  if Set_has s v then s else (s ++ [v])%list.

(** A string in a condition: the empty string is false. *)
Definition truthy (s : option string) : bool :=
  match s with
  | Some m => negb (String.eqb m "")
  | None => false
  end.

(** What fast-xml-parser returns: text, or an element as the object of
    its attributes and children, or, for a tag the [isArray] option
    names, the array of its elements.  The elements of an array are
    taken with attributes only, the shape [RawInputRecord[]]. *)
#[warnings="-register-all"]
Inductive xml_value : Type :=
  | XUndefined
  | XPrimitive (v : value)
  | XObject (props : list (string * xml_value))
  | XArray (items : list object).

Fixpoint xml_lookup (props : list (string * xml_value)) (k : string)
  : xml_value :=
  match props with
  | [] => XUndefined
  | (k', v) :: r => if String.eqb k k' then v else xml_lookup r k
  end.

(** [x?.k], for a key that no string, number or array has. *)
Definition optional_get (x : xml_value) (k : string) : xml_value :=
  match x with
  | XObject props => xml_lookup props k
  | _ => XUndefined
  end.

(** The truth value of [x] in [x || []]. *)
Definition xml_truthy (x : xml_value) : bool :=
  match x with
  | XUndefined => false
  | XPrimitive VUndefined => false
  | XPrimitive (VString s) => negb (String.eqb s "")
  | XPrimitive (VNumber n) =>
      negb (isNaN n || match n with S754_zero _ => true | _ => false end)
  | XObject _ | XArray _ => true
  end.

(** The separator of the errors of one record in the second loop. *)
Definition errors_separator : string := " &" ++ String "010" "".

(** ** The inputs of [utility.test.ts], and a few more *)

Definition num (z : Z) : value := VNumber (of_Z z).

Definition mockValidAccountRecord : object :=
  [ ("reference", num 1); ("accountNumber", VString "1001");
    ("startBalance", num 100); ("mutation", num 20);
    ("endBalance", num 120); ("description", VString "Valid record") ].

Definition mockInvalidBalanceRecord : object :=
  [ ("reference", num 1); ("accountNumber", VString "1001");
    ("startBalance", num 100); ("mutation", num 10);
    ("endBalance", num 120); ("description", VString "Valid record") ].

Definition mockInvalidFormatRecord : object :=
  [ ("reference", num 1); ("accountNumber", VString "1001");
    ("startBalance", num 100); ("mutation", VString "33e");
    ("endBalance", num 120); ("description", VString "Valid record") ].

Definition mockRawInputRecords : list object :=
  [ [ (" Reference ", num 1); ("AccountNumber", VString "1001");
      ("StartBalance", num 100); ("Mutation", num 20);
      ("EndBalance", num 120); ("Description", VString "Valid record") ];
    [ (" Reference ", num 1); ("AccountNumber", VString "1002");
      ("StartBalance", num 100); ("Mutation", num 20);
      ("EndBalance", num 120); ("Description", VString "Duplicate record") ];
    [ (" Reference ", num 3); ("AccountNumber", VString "1003");
      ("StartBalance", num 100); ("Mutation", num 10);
      ("EndBalance", num 120); ("Description", VString "Wrong balance") ] ].

(** A row as the adapters give it: every value a string. *)
Definition row (reference accountNumber startBalance mutation endBalance
                  description : string) : object :=
  [ ("reference", VString reference); ("accountNumber", VString accountNumber);
    ("startBalance", VString startBalance); ("mutation", VString mutation);
    ("endBalance", VString endBalance); ("description", VString description) ].

(** Two keys that sanitize to the same key. *)
Definition collidingKeysRecord : object :=
  [ ("Reference", num 1); ("reference", num 2) ].

(** Balances that are infinite. *)
Definition infiniteBalanceRecord : object :=
  [ ("startBalance", VNumber Infinity); ("mutation", num 0);
    ("endBalance", VNumber Infinity) ].

(** A record of an XML input with an attribute whose name is an array
    index. *)
Definition indexedAttributeRecord : object :=
  [ ("0", VString "x"); ("reference", VString "1") ].

(** A reference below the safe integers and a mutation that is no
    number. *)
Definition unsafeReferenceRecord : object :=
  [ ("reference", num (-9007199254740994)); ("accountNumber", VString "1001");
    ("startBalance", num 100); ("mutation", VString "33e");
    ("endBalance", num 120); ("description", VString "Valid record") ].

(** A parse with no [records] root. *)
Definition parse_without_records (xmlString : string) : option xml_value :=
  Some (XObject [("root", XPrimitive (VString ""))]).

(** A record without [reference]. *)
Definition withoutReferenceRecord : object :=
  [ ("accountNumber", VString "1001"); ("startBalance", num 100);
    ("mutation", num 20); ("endBalance", num 120);
    ("description", VString "No reference") ].

(** A sum below zero that rounds to zero. *)
Definition negativeRoundedZeroRecord : object :=
  [ ("startBalance", VString "0.004"); ("mutation", VString "-0.005");
    ("endBalance", VString "0") ].

(** A parser of CSV that finds the rows of the tests in every text, and
    the text of an exception. *)
Definition parse_mock_rows (csvString : string) : list object :=
  mockRawInputRecords.

Definition error_text (content : string) : string := "SyntaxError"%string.

(** A record with [reference] as its last field. *)
Definition referenceLastRecord : object :=
  [ ("accountNumber", VString "1001"); ("startBalance", num 100);
    ("mutation", num 20); ("endBalance", num 120);
    ("description", VString "Valid record"); ("reference", num 1) ]%string.

Section Pipeline.

Set Default Proof Using "Type".
Set Proof Using Clear Unused.

(** The error map zod renders messages with; the parse of papaparse
    ([header: true], [skipEmptyLines: true]: the rows as objects); the
    parse of fast-xml-parser, [None] when it throws. *)
Variable localeError : Zod.issue_code -> string.
Variable Papa_parse : string -> list object.
Variable XMLParser_parse : string -> option xml_value.

Definition arrange (type : string) (sanitizedRecord : object) : object :=
  if String.eqb type "xml" then reorderRecordForXml sanitizedRecord
  else sanitizedRecord.

(** The first loop of [processFile]: one step on one record. *)
Definition validation_step (type : string)
  (validationErrorRecords : list object) (record : object) : list object :=
  let sanitizedRecord := sanitizeKeys record in
  let validationResult :=
    Zod.safeParse localeError accountRecordSchema sanitizedRecord in
  match validationResult with
  | Zod.parse_failure error =>
      let arrangedRecord := arrange type sanitizedRecord in
      (validationErrorRecords
         ++ [errorRecord arrangedRecord (formatZodErrors error)])%list
  | Zod.parse_success => validationErrorRecords
  end.

(** The second loop: the state is the set of references and the error
    records pushed so far. *)
Definition consistency_step (type : string)
  (state : list value * list object) (record : object)
  : list value * list object :=
  let '(uniqueReferences, errorRecords) := state in
  let sanitizedRecord := sanitizeKeys record in
  let reference := get sanitizedRecord "reference" in
  let '(errors, uniqueReferences) :=
    if Set_has uniqueReferences reference
    then (["Duplicate record"], uniqueReferences)
    else ([], Set_add uniqueReferences reference) in
  let endBalanceError := validateEndBalance sanitizedRecord in
  let errors :=
    match endBalanceError with
    | Some e => if truthy endBalanceError then (errors ++ [e])%list else errors
    | None => errors
    end in
  if (0 <? List.length errors)%nat then
    let arrangedRecord := arrange type sanitizedRecord in
    (uniqueReferences,
     (errorRecords
        ++ [errorRecord arrangedRecord (join errors_separator errors)])%list)
  else (uniqueReferences, errorRecords).

(** [processFile]. *)
Definition processFile (records : list object) (type : string) : list object :=
  let validationErrorRecords := fold_left (validation_step type) records [] in
  if (List.length validationErrorRecords =? 0)%nat then
    snd (fold_left (consistency_step type) records ([], []))
  else validationErrorRecords.

(** [parseCsv]. *)
Definition parseCsv (csvString : string) : list object :=
  let results := Papa_parse csvString in
  processFile results "csv".

(** [parseXml]: [None] is an exception, the parser's or the [TypeError]
    of [records.forEach] on a value that is no array. *)
Definition parseXml (xmlString : string) : option (list object) :=
  match XMLParser_parse xmlString with
  | None => None
  | Some result =>
      let found := optional_get (optional_get result "records") "record" in
      let dataArray := if xml_truthy found then found else XArray [] in
      match dataArray with
      | XArray records => Some (processFile records "xml")
      | _ => None
      end
  end.

(** ** [FileUploader.tsx]

    The state of the component and its handlers; a handler is the
    sequence of its state updates.  A file is given by its name, and
    its text when the reader has loaded it. *)

Record uploader : Type :=
  { errorRecords : option (list object);
    uploadStatus : string;
    errorMessage : string;
    isProcessing : bool;
    uploadedFileName : option string }.

Definition setErrorRecords (v : option (list object)) (st : uploader) :=
  {| errorRecords := v; uploadStatus := uploadStatus st;
     errorMessage := errorMessage st; isProcessing := isProcessing st;
     uploadedFileName := uploadedFileName st |}.

Definition setUploadStatus (v : string) (st : uploader) :=
  {| errorRecords := errorRecords st; uploadStatus := v;
     errorMessage := errorMessage st; isProcessing := isProcessing st;
     uploadedFileName := uploadedFileName st |}.

Definition setErrorMessage (v : string) (st : uploader) :=
  {| errorRecords := errorRecords st; uploadStatus := uploadStatus st;
     errorMessage := v; isProcessing := isProcessing st;
     uploadedFileName := uploadedFileName st |}.

Definition setIsProcessing (v : bool) (st : uploader) :=
  {| errorRecords := errorRecords st; uploadStatus := uploadStatus st;
     errorMessage := errorMessage st; isProcessing := v;
     uploadedFileName := uploadedFileName st |}.

Definition setUploadedFileName (v : option string) (st : uploader) :=
  {| errorRecords := errorRecords st; uploadStatus := uploadStatus st;
     errorMessage := errorMessage st; isProcessing := isProcessing st;
     uploadedFileName := v |}.

Definition resetStateValues (st : uploader) : uploader :=
  setUploadedFileName None
    (setIsProcessing false
       (setErrorMessage "" (setUploadStatus "" (setErrorRecords None st)))).

(** [onDrop], up to [reader.readAsText]: the state, and the name of the
    file the reader was started on, if one was. *)
Definition onDrop (acceptedFiles : list string) (st : uploader)
  : uploader * option string :=
  let st := resetStateValues st in
  match acceptedFiles with
  | [] => (st, None)
  | file :: _ =>
      let st := setIsProcessing true (setUploadedFileName (Some file) st) in
      match fileSchema_parse file with
      | [] => (st, Some file)
      | messages =>
          (setErrorRecords None
             (setErrorMessage (join ", " messages) (setIsProcessing false st)),
           None)
      end
  end.

(** The text of the exception that parsing a content throws, as the
    template literal renders it. *)
Variable parseError_text : string -> string.

(** [reader.onload] of the reader started on [file]. *)
Definition reader_onload (file content : string) (st : uploader) : uploader :=
  let errors :=
    if endsWith file ".csv" then Some (parseCsv content)
    else if endsWith file ".xml" then parseXml content
    else Some [] in
  match errors with
  | Some errors =>
      setErrorMessage ""
        (setIsProcessing false (setErrorRecords (Some errors) st))
  | None =>
      setIsProcessing false
        (setErrorRecords None
           (setErrorMessage
              ("An error occurred during file parsing: "
                 ++ parseError_text content) st))
  end.

(** [reader.onerror]. *)
Definition reader_onerror (st : uploader) : uploader :=
  setIsProcessing false (setErrorMessage "Failed to read file." st).

(** [onDropRejected], on the names of the rejected files. *)
Definition onDropRejected (fileRejections : list string) (st : uploader)
  : uploader :=
  let st := resetStateValues st in
  match fileRejections with
  | [] => st
  | rejectedFile :: _ =>
      setErrorMessage ("Unsupported file type: " ++ rejectedFile) st
  end.

(** What the component shows under the drop zone, in order. *)
Inductive shown : Type :=
  | Processing
  | Status (text : string)
  | ErrorText (text : string)
  | UploadedFile (name : string)
  | Table (records : list object)
  | NoErrorRecords.

Definition render (st : uploader) : list shown :=
  ((if isProcessing st then [Processing] else [])
   ++ (match errorRecords st with
       | None =>
           if negb (String.eqb (uploadStatus st) "")
           then [Status (uploadStatus st)] else []
       | Some _ => []
       end)
   ++ (if negb (String.eqb (errorMessage st) "")
       then [ErrorText (errorMessage st)] else [])
   ++ (match uploadedFileName st with
       | Some name =>
           if negb (String.eqb name "") && negb (isProcessing st)
           then [UploadedFile name] else []
       | None => []
       end)
   ++ (match errorRecords st with
       | Some [] => [NoErrorRecords]
       | Some records => [Table records]
       | None => []
       end))%list.

(** The state of the component when it is mounted: the initial values
    of its five [useState]. *)
Definition initial : uploader :=
  {| errorRecords := None; uploadStatus := ""; errorMessage := "";
     isProcessing := false; uploadedFileName := None |}.

(** What happens to the component: the two callbacks of the drop zone,
    and the two callbacks of a reader that [onDrop] started, each reader
    firing one of them once, at any later time. *)
Inductive event : Type :=
  | Drop (acceptedFiles : list string)
  | DropRejected (fileRejections : list string)
  | Load (file content : string)
  | ReadError (file : string).

(** A reader on [file] leaves the readers that have not fired yet. *)
Fixpoint take_reader (file : string) (readers : list string)
  : option (list string) :=
  match readers with
  | [] => None
  | r :: rest =>
      if String.eqb r file then Some rest
      else option_map (cons r) (take_reader file rest)
  end.

(** One event, on the state and the readers still to fire; [None] when
    the event is of a reader that is not there. *)
Definition handle (e : event) (s : uploader * list string)
  : option (uploader * list string) :=
  let '(st, readers) := s in
  match e with
  | Drop acceptedFiles =>
      let '(st, started) := onDrop acceptedFiles st in
      Some (st, (readers ++ match started with
                            | Some file => [file]
                            | None => []
                            end)%list)
  | DropRejected fileRejections =>
      Some (onDropRejected fileRejections st, readers)
  | Load file content =>
      match take_reader file readers with
      | Some readers => Some (reader_onload file content st, readers)
      | None => None
      end
  | ReadError file =>
      match take_reader file readers with
      | Some readers => Some (reader_onerror st, readers)
      | None => None
      end
  end.

Fixpoint run (events : list event) (s : uploader * list string)
  : option (uploader * list string) :=
  match events with
  | [] => Some s
  | e :: events =>
      match handle e s with
      | Some s => run events s
      | None => None
      end
  end.

(** What every event keeps: the status is empty, a reader is still to
    fire while the component is processing, and readers are only on
    names that [fileSchema] accepts. *)
Definition steady (s : uploader * list string) : Prop :=
  uploadStatus (fst s) = ""
  /\ (isProcessing (fst s) = true -> snd s <> [])
  /\ forall file, In file (snd s) -> fileSchema_refine file = true.

(** ** The notions the properties are stated with *)

(** An object as the runtime builds it: distinct keys, the array indices
    first and in ascending order. *)
Definition key_before (k1 k2 : string) : Prop :=
  match array_index k1, array_index k2 with
  | Some i, Some j => (i <= j)%Z
  | None, Some _ => False
  | _, None => True
  end.

Fixpoint ordered (o : object) : Prop :=
  match o with
  | [] => True
  | p :: r => Forall (fun q => key_before (fst p) (fst q)) r /\ ordered r
  end.

Definition well_formed (o : object) : Prop := NoDup (keys o) /\ ordered o.

(** An entry under its sanitized key. *)
Definition sanitize_entry (p : string * value) : string * value :=
  (sanitizeKey (fst p), snd p).

(** The issues of the structural validation of a raw record. *)
Definition structural_issues (record : object) : list Zod.ZodIssue :=
  Zod.object_issues localeError accountRecordSchema (sanitizeKeys record).

(** A record passes the structural validation when [safeParse] succeeds
    on its sanitized form. *)
Definition structurally_valid (record : object) : bool :=
  Zod.success
    (Zod.safeParse localeError accountRecordSchema (sanitizeKeys record)).

(** The error record of a record that fails the structural validation. *)
Definition structural_error_record (type : string) (record : object)
  : object :=
  errorRecord (arrange type (sanitizeKeys record))
    (formatZodErrors {| Zod.issues := structural_issues record |}).

(** The reference the duplicate detection reads. *)
Definition reference_of (record : object) : value :=
  get (sanitizeKeys record) "reference".

(** A record repeats a reference when an earlier record holds the same
    value. *)
Definition seen_before (earlier : list object) (record : object) : bool :=
  existsb (fun r => SameValueZero (reference_of record) (reference_of r))
    earlier.

(** The errors of the consistency pass on a record, after the records
    [earlier] of the same file. *)
Definition consistency_errors (earlier : list object) (record : object)
  : list string :=
  ((if seen_before earlier record then ["Duplicate record"] else [])
   ++ match validateEndBalance (sanitizeKeys record) with
      | Some e => [e]
      | None => []
      end)%list.

(** The report of the consistency pass as the specification words it:
    in the order of the file, every record with an error of its own. *)
Fixpoint consistency_report (type : string) (earlier records : list object)
  : list object :=
  match records with
  | [] => []
  | r :: rest =>
      (match consistency_errors earlier r with
       | [] => []
       | errors =>
           [errorRecord (arrange type (sanitizeKeys r))
              (join errors_separator errors)]
       end ++ consistency_report type (earlier ++ [r]) rest)%list
  end.

(** The entries of the error string of a structural validation: for
    every field of the schema, in its order, one per issue. *)
Definition field_entries (field : string * Zod.schema) (input : object)
  : list string :=
  map (fun i => "Field - " ++ fst field ++ " Error - " ++ localeError (Zod.code i))
    (Zod.parse_field (snd field) (get input (fst field))).

(** The sign and the hundredths a finite number is rounded to by
    [toFixed(2)]. *)
Definition rounded_hundredths (x : number) : bool * Z :=
  match x with
  | S754_finite sg _ _ =>
      let '(p, q) := magnitude_ratio x in (sg, hundredths p q)
  | _ => (false, 0%Z)
  end.

(** A finite number whose magnitude is below 10^21. *)
Definition below_1e21 (x : number) : bool :=
  match x with
  | S754_zero _ => true
  | S754_finite _ _ _ =>
      let '(p, q) := magnitude_ratio x in (p <? 10 ^ 21 * q)%Z
  | _ => false
  end.

(** An error record of an XML file beside the error record of the same
    record in a CSV file: the same value under every name, and the same
    fields but for [reference], which the first always has. *)
Definition same_fields (x c : object) : Prop :=
  (forall k, get x k = get c k)
  /\ Permutation (keys x)
       (if has_key "reference" c then keys c
        else "reference"%string :: keys c).

(** *** Rounding to two decimals, as the specification words it

    The rounding is stated on the rational number a value stands for,
    apart from the digits that [toFixed] computes. *)

(** The rational number a finite value stands for. *)
Definition value_of (x : number) : Q :=
  match x with
  | S754_finite sg m e =>
      let magnitude := (inject_Z (Zpos m) * Qpower 2 e)%Q in
      if sg then (- magnitude)%Q else magnitude
  | _ => 0%Q
  end.

(** A value below zero; [-0] is not. *)
Definition is_negative (x : number) : bool :=
  if Qlt_le_dec (value_of x) 0 then true else false.

(** [x] rounded to two decimals, counted in hundredths: the integer
    nearest to [100 x], a half away from zero. *)
Definition round_two_decimals (x : number) : Z :=
  let n := Qfloor (Qabs (value_of x) * 100 + (1 # 2)) in
  if is_negative x then (- n)%Z else n.

(** The set of references after the records [earlier]. *)
Definition set_models (s : list value) (earlier : list object) : Prop :=
  forall v, Set_has s v
            = existsb (fun r => SameValueZero v (reference_of r)) earlier.

(** The keys of an object in which only array indices come before
    [reference]. *)
Definition reference_leads (ks : list string) : Prop :=
  exists idx rest,
    ks = (idx ++ "reference" :: rest)%list
    /\ Forall (fun k => array_index k <> None) idx.

(** The digits of a string, and the number they write. *)
Fixpoint keep_digits (s : string) : string :=
  match s with
  | EmptyString => EmptyString
  | String c r => if is_digit c then String c (keep_digits r) else keep_digits r
  end.

Fixpoint digits_only (s : string) : bool :=
  match s with
  | EmptyString => true
  | String c r => is_digit c && digits_only r
  end.

Definition digits_number (s : string) : option N :=
  option_map N.of_uint (NilEmpty.uint_of_string s).

Local Open Scope list_scope.

(** ** Keys *)

Lemma lower_char_idempotent (c : ascii) :
  lower_char (lower_char c) = lower_char c.
Proof.
  destruct c as [[] [] [] [] [] [] [] []]; reflexivity.
Qed.

Lemma lower_char_whitespace (c : ascii) :
  is_whitespace (lower_char c) = is_whitespace c.
Proof.
  destruct c as [[] [] [] [] [] [] [] []]; reflexivity.
Qed.

Lemma remove_whitespace_filter (s : string) :
  list_ascii_of_string (remove_whitespace s)
  = filter (fun c => negb (is_whitespace c)) (list_ascii_of_string s).
Proof.
  induction s as [|c r IH]; simpl; [reflexivity|].
  destruct (is_whitespace c); simpl; [assumption | now rewrite IH].
Qed.

Lemma remove_whitespace_idempotent (s : string) :
  remove_whitespace (remove_whitespace s) = remove_whitespace s.
Proof.
  induction s as [|c r IH]; simpl; [reflexivity|].
  destruct (is_whitespace c) eqn:E; simpl; [assumption|].
  now rewrite E, IH.
Qed.

Lemma sanitizeKey_shape (key : string) :
  sanitizeKey key
  = match remove_whitespace key with
    | EmptyString => EmptyString
    | String c r => String (lower_char c) r
    end.
Proof.
  unfold sanitizeKey. destruct (remove_whitespace key); reflexivity.
Qed.

Lemma sanitizeKey_idempotent (key : string) :
  sanitizeKey (sanitizeKey key) = sanitizeKey key.
Proof.
  rewrite (sanitizeKey_shape key).
  pose proof (remove_whitespace_idempotent key) as H.
  destruct (remove_whitespace key) as [|c r]; [reflexivity|].
  simpl in H. destruct (is_whitespace c) eqn:E.
  - exfalso.
    assert (L : String.length (remove_whitespace r) <= String.length r).
    { clear. induction r as [|a r IH]; simpl; [lia|].
      destruct (is_whitespace a); simpl; lia. }
    rewrite H in L. simpl in L. lia.
  - injection H as H.
    rewrite sanitizeKey_shape. simpl.
    rewrite lower_char_whitespace, E, H, lower_char_idempotent. reflexivity.
Qed.

Lemma sanitizeKey_no_whitespace (key : string) (c : ascii) :
  In c (list_ascii_of_string (sanitizeKey key)) -> is_whitespace c = false.
Proof.
  rewrite sanitizeKey_shape.
  pose proof (remove_whitespace_filter key) as H.
  destruct (remove_whitespace key) as [|a r]; simpl; [tauto|].
  simpl in H.
  assert (F : forall x, In x (a :: list_ascii_of_string r) ->
                        is_whitespace x = false).
  { intros x Hx. rewrite H in Hx. apply filter_In in Hx.
    destruct Hx as [_ Hx]. now destruct (is_whitespace x). }
  intros [<- | Hc].
  - rewrite lower_char_whitespace. apply F. now left.
  - apply F. now right.
Qed.

(** ** Objects *)

Lemma has_key_In (k : string) (o : object) :
  has_key k o = true <-> In k (keys o).
Proof.
  unfold has_key, keys. rewrite existsb_exists, in_map_iff. split.
  - intros [p [Hp E]]. apply String.eqb_eq in E. exists p. now split.
  - intros [p [E Hp]]. exists p. split; [assumption|].
    apply String.eqb_eq. now symmetry.
Qed.

Lemma has_key_false (k : string) (o : object) :
  has_key k o = false <-> ~ In k (keys o).
Proof.
  rewrite <- has_key_In. destruct (has_key k o); split; congruence.
Qed.

Lemma keys_update (k : string) (v : value) (o : object) :
  keys (update k v o) = keys o.
Proof.
  induction o as [|[k' v'] r IH]; simpl; [reflexivity|].
  destruct (String.eqb k k'); simpl; [reflexivity | now rewrite IH].
Qed.


Lemma insert_index_perm (i : Z) (k : string) (v : value) (o : object) :
  Permutation (insert_index i k v o) ((k, v) :: o).
Proof.
  induction o as [|[k' v'] r IH]; simpl; [reflexivity|].
  destruct (array_index k') as [j|]; [|reflexivity].
  destruct (i <? j)%Z; [reflexivity|].
  rewrite IH. apply perm_swap.
Qed.

Lemma define_fresh_perm (k : string) (v : value) (o : object) :
  has_key k o = false -> Permutation (define k v o) ((k, v) :: o).
Proof.
  intros H. unfold define. rewrite H.
  destruct (array_index k).
  - apply insert_index_perm.
  - rewrite Permutation_app_comm. reflexivity.
Qed.


Lemma keys_define (k : string) (v : value) (o : object) (k' : string) :
  In k' (keys (define k v o)) <-> k' = k \/ In k' (keys o).
Proof.
  unfold define. destruct (has_key k o) eqn:E.
  - rewrite keys_update. apply has_key_In in E. split; [tauto|].
    intros [-> | H]; assumption.
  - assert (P : Permutation (keys (define k v o)) (k :: keys o)).
    { unfold keys. change (k :: map fst o) with (map fst ((k, v) :: o)).
      apply Permutation_map, define_fresh_perm, E. }
    unfold define in P. rewrite E in P. split.
    + intros H. apply (Permutation_in _ P) in H. simpl in H.
      destruct H; [left; congruence | tauto].
    + intros H. apply (Permutation_in _ (Permutation_sym P)). simpl.
      destruct H; [left; congruence | tauto].
Qed.

Lemma get_update (k : string) (v : value) (o : object) :
  has_key k o = true -> get (update k v o) k = v.
Proof.
  induction o as [|[k' v'] r IH]; simpl; [discriminate|].
  destruct (String.eqb k k') eqn:E; simpl; rewrite E; [reflexivity|].
  exact IH.
Qed.

Lemma get_define (k : string) (v : value) (o : object) :
  get (define k v o) k = v.
Proof.
  unfold define. destruct (has_key k o) eqn:E.
  - now apply get_update.
  - apply has_key_false in E.
    destruct (array_index k) as [i|].
    + induction o as [|[k' v'] r IH]; simpl.
      * now rewrite String.eqb_refl.
      * assert (N : String.eqb k k' = false).
        { apply String.eqb_neq. intros ->. apply E. now left. }
        assert (E' : ~ In k (keys r)) by (intros H; apply E; now right).
        destruct (array_index k') as [j|]; simpl.
        -- destruct (i <? j)%Z; simpl.
           ++ now rewrite String.eqb_refl.
           ++ rewrite N. now apply IH.
        -- now rewrite String.eqb_refl.
    + induction o as [|[k' v'] r IH]; simpl.
      * now rewrite String.eqb_refl.
      * assert (N : String.eqb k k' = false).
        { apply String.eqb_neq. intros ->. apply E. now left. }
        rewrite N. apply IH. intros H; apply E; now right.
Qed.

Lemma key_before_trans (a b c : string) :
  key_before a b -> key_before b c -> key_before a c.
Proof.
  unfold key_before.
  destruct (array_index a), (array_index b), (array_index c);
    try tauto; lia.
Qed.

Lemma ordered_app (a b : object) :
  ordered (a ++ b)
  <-> ordered a /\ ordered b
      /\ forall p q, In p a -> In q b -> key_before (fst p) (fst q).
Proof.
  induction a as [|x a IH]; simpl.
  - split; [intros H; repeat split; tauto | tauto].
  - rewrite IH, Forall_app, !Forall_forall. split.
    + intros [[H1 H2] [H3 [H4 H5]]]. repeat split; try assumption.
      intros p q [<- | Hp] Hq; auto.
    + intros [[H1 H2] [H3 H4]]. repeat split; try assumption.
      * intros q Hq. apply H4; auto.
      * intros p q Hp Hq. apply H4; auto.
Qed.

Lemma well_formed_prefix (a b : object) :
  well_formed (a ++ b) -> well_formed a.
Proof.
  intros [N O]. split.
  - unfold keys in *. rewrite map_app in N.
    now apply NoDup_app_remove_r in N.
  - now apply ordered_app in O.
Qed.

Lemma insert_index_ordered (i : Z) (k : string) (v : value) (o : object) :
  array_index k = Some i -> ordered o -> ordered (insert_index i k v o).
Proof.
  intros Hk. induction o as [|[k' v'] r IH]; simpl.
  - intros _. split; [constructor | exact I].
  - intros [F O]. destruct (array_index k') as [j|] eqn:Hk'.
    + destruct (i <? j)%Z eqn:L.
      * simpl. repeat split; try assumption.
        assert (B : key_before k k').
        { unfold key_before. rewrite Hk, Hk'.
          apply Z.ltb_lt in L. lia. }
        constructor; [exact B|].
        rewrite Forall_forall in *. intros q Hq.
        apply (key_before_trans _ k'); [exact B | now apply F].
      * simpl. split; [|now apply IH].
        rewrite Forall_forall in *. intros q Hq.
        apply (Permutation_in _ (insert_index_perm i k v r)) in Hq.
        destruct Hq as [<- | Hq]; [|now apply F].
        simpl. unfold key_before. rewrite Hk, Hk'.
        apply Z.ltb_ge in L. exact L.
    + simpl. repeat split; try assumption.
      assert (B : key_before k k').
      { unfold key_before. now rewrite Hk, Hk'. }
      constructor; [exact B|].
      rewrite Forall_forall in *. intros q Hq.
      apply (key_before_trans _ k'); [exact B | now apply F].
Qed.

Lemma update_ordered (k : string) (v : value) (o : object) :
  ordered o -> ordered (update k v o).
Proof.
  induction o as [|[k' v'] r IH]; simpl; [tauto|].
  intros [F O]. destruct (String.eqb k k'); simpl.
  - now split.
  - split; [|now apply IH].
    rewrite Forall_forall in *. intros q Hq.
    assert (Hk : In (fst q) (keys (update k v r))) by now apply in_map.
    rewrite keys_update in Hk. apply in_map_iff in Hk.
    destruct Hk as [q' [E Hq']]. rewrite <- E. now apply F.
Qed.

Lemma define_well_formed (k : string) (v : value) (o : object) :
  well_formed o -> well_formed (define k v o).
Proof.
  intros [N O]. unfold define. destruct (has_key k o) eqn:E.
  - split; [now rewrite keys_update | now apply update_ordered].
  - pose proof (define_fresh_perm k v o E) as P.
    unfold define in P. rewrite E in P.
    split.
    + apply (Permutation_NoDup (l := k :: keys o)).
      * symmetry. change (k :: keys o) with (keys ((k, v) :: o)).
        now apply Permutation_map.
      * constructor; [now apply has_key_false | assumption].
    + destruct (array_index k) as [i|] eqn:Hk.
      * now apply insert_index_ordered.
      * apply ordered_app. repeat split; simpl; try tauto.
        -- constructor.
        -- intros p q _ [<- | []]. simpl. unfold key_before.
           rewrite Hk. now destruct (array_index (fst p)).
Qed.

Lemma assign_well_formed (k : string) (v : value) (o : object) :
  well_formed o -> well_formed (assign k v o).
Proof.
  intros H. unfold assign.
  destruct (String.eqb k "__proto__" && negb (has_key k o))%bool;
    [assumption | now apply define_well_formed].
Qed.

Lemma well_formed_nil : well_formed [].
Proof. split; [constructor | exact I]. Qed.

Lemma fold_left_invariant {A B : Type} (P : A -> Prop) (f : A -> B -> A)
  (l : list B) (a : A) :
  P a -> (forall x y, P x -> In y l -> P (f x y)) -> P (fold_left f l a).
Proof.
  revert a. induction l as [|y l IH]; simpl; intros a Ha H; [assumption|].
  apply IH; [apply H; auto | intros; apply H; auto].
Qed.

Lemma sanitizeKeys_well_formed (record : object) :
  well_formed (sanitizeKeys record).
Proof.
  unfold sanitizeKeys. apply fold_left_invariant.
  - apply well_formed_nil.
  - intros x y Hx _. now apply assign_well_formed.
Qed.

(** A key that comes last in a well-formed object was added last. *)
Lemma define_last (k : string) (v : value) (o : object) :
  well_formed (o ++ [(k, v)]) -> define k v o = (o ++ [(k, v)]).
Proof.
  intros [N O]. unfold define.
  assert (E : has_key k o = false).
  { apply has_key_false. unfold keys in N. rewrite map_app in N. simpl in N.
    apply NoDup_remove_2 in N. now rewrite app_nil_r in N. }
  rewrite E. destruct (array_index k) as [i|] eqn:Hk; [|reflexivity].
  apply ordered_app in O. destruct O as [_ [_ B]].
  assert (B' : forall p, In p o -> key_before (fst p) k).
  { intros p Hp. apply (B p (k, v)); [assumption | now left]. }
  clear -B' Hk. induction o as [|[k' v'] r IH]; simpl; [reflexivity|].
  assert (H := B' (k', v') (or_introl eq_refl)).
  simpl in H. unfold key_before in H. rewrite Hk in H.
  destruct (array_index k') as [j|]; [|contradiction].
  destruct (i <? j)%Z eqn:L; [apply Z.ltb_lt in L; lia|].
  rewrite IH; [reflexivity|]. intros p Hp. apply B'. now right.
Qed.

Lemma spread_well_formed_app (src acc : object) :
  well_formed (acc ++ src) -> spread src acc = (acc ++ src).
Proof.
  unfold spread. revert acc.
  induction src as [|[k v] r IH]; simpl; intros acc H.
  - now rewrite app_nil_r.
  - assert (W : well_formed (acc ++ [(k, v)])).
    { apply (well_formed_prefix _ r). now rewrite <- app_assoc. }
    rewrite (define_last _ _ _ W), IH.
    + now rewrite <- app_assoc.
    + now rewrite <- app_assoc.
Qed.

Lemma spread_well_formed (o : object) :
  well_formed o -> spread o [] = o.
Proof. intros H. now apply (spread_well_formed_app o []). Qed.

Lemma sanitizeKeys_keys (record : object) (k : string) :
  In k (keys (sanitizeKeys record)) ->
  (exists k0, In k0 (keys record) /\ k = sanitizeKey k0) /\ k <> "__proto__".
Proof.
  revert k. unfold sanitizeKeys.
  apply (fold_left_invariant
           (fun acc => forall k, In k (keys acc) ->
              (exists k0, In k0 (keys record) /\ k = sanitizeKey k0)
              /\ k <> "__proto__")).
  - intros k [].
  - intros acc [k0 v0] IH Hy k Hk. simpl in Hk. unfold assign in Hk.
    destruct (String.eqb (sanitizeKey k0) "__proto__") eqn:E; simpl in Hk.
    + destruct (has_key (sanitizeKey k0) acc) eqn:F; simpl in Hk.
      * apply has_key_In in F. apply IH in F. apply String.eqb_eq in E.
        tauto.
      * now apply IH.
    + apply keys_define in Hk. destruct Hk as [-> | Hk]; [|now apply IH].
      split.
      * exists k0. split; [|reflexivity]. now apply (in_map fst) in Hy.
      * now apply String.eqb_neq.
Qed.

Lemma sanitizeKeys_fixed (o acc : object) :
  well_formed (acc ++ o) ->
  (forall k, In k (keys o) -> sanitizeKey k = k /\ k <> "__proto__") ->
  fold_left (fun a p => assign (sanitizeKey (fst p)) (snd p) a) o acc
  = (acc ++ o).
Proof.
  revert acc. induction o as [|[k v] r IH]; simpl; intros acc W H.
  - now rewrite app_nil_r.
  - destruct (H k (or_introl eq_refl)) as [F P]. rewrite F.
    unfold assign. apply String.eqb_neq in P. rewrite P. simpl.
    assert (W' : well_formed (acc ++ [(k, v)])).
    { apply (well_formed_prefix _ r). now rewrite <- app_assoc. }
    rewrite (define_last _ _ _ W'), IH.
    + now rewrite <- app_assoc.
    + now rewrite <- app_assoc.
    + intros k' Hk'. apply H. now right.
Qed.

Lemma sanitizeKeys_idempotent (record : object) :
  sanitizeKeys (sanitizeKeys record) = sanitizeKeys record.
Proof.
  unfold sanitizeKeys at 1.
  apply (sanitizeKeys_fixed (sanitizeKeys record) []).
  - apply sanitizeKeys_well_formed.
  - intros k Hk. apply sanitizeKeys_keys in Hk.
    destruct Hk as [[k0 [_ ->]] P]. split; [|assumption].
    apply sanitizeKey_idempotent.
Qed.






Lemma get_update_other (k k' : string) (v : value) (o : object) :
  k' <> k -> get (update k v o) k' = get o k'.
Proof.
  intros N. induction o as [|[k0 v0] r IH]; simpl; [reflexivity|].
  destruct (String.eqb k k0) eqn:E; simpl.
  - apply String.eqb_eq in E. subst k0.
    apply String.eqb_neq in N. now rewrite N.
  - now rewrite IH.
Qed.

Lemma get_define_other (k k' : string) (v : value) (o : object) :
  k' <> k -> get (define k v o) k' = get o k'.
Proof.
  intros N. unfold define. destruct (has_key k o).
  - now apply get_update_other.
  - apply String.eqb_neq in N. destruct (array_index k) as [i|].
    + induction o as [|[k0 v0] r IH]; simpl; [now rewrite N|].
      destruct (array_index k0) as [j|]; simpl.
      * destruct (i <? j)%Z; simpl; [now rewrite N|]. now rewrite IH.
      * now rewrite N.
    + induction o as [|[k0 v0] r IH]; simpl; [now rewrite N|].
      now rewrite IH.
Qed.




(** Keys that stay distinct and become no array index keep their
    order. *)
Lemma sanitizeKeys_in_order_from (o acc : object) :
  NoDup (keys acc ++ map sanitizeKey (keys o)) ->
  (forall k, In k (keys o) ->
     array_index (sanitizeKey k) = None
     /\ sanitizeKey k <> "__proto__"%string) ->
  fold_left (fun a p => assign (sanitizeKey (fst p)) (snd p) a) o acc
  = acc ++ map sanitize_entry o.
Proof.
  revert acc. induction o as [|[k v] r IH]; simpl; intros acc N P.
  - now rewrite app_nil_r.
  - destruct (P k (or_introl eq_refl)) as [I Q].
    apply String.eqb_neq in Q.
    assert (F : has_key (sanitizeKey k) acc = false).
    { apply has_key_false. apply NoDup_remove_2 in N.
      intros H. apply N. apply in_or_app. now left. }
    unfold assign, define. rewrite Q, F, I. simpl.
    rewrite IH.
    + now rewrite <- app_assoc.
    + unfold keys in *. rewrite map_app, <- app_assoc. exact N.
    + intros k' Hk'. apply P. now right.
Qed.

Lemma sanitizeKeys_in_order (record : object) :
  NoDup (map sanitizeKey (keys record)) ->
  (forall k, In k (keys record) ->
     array_index (sanitizeKey k) = None
     /\ sanitizeKey k <> "__proto__"%string) ->
  sanitizeKeys record = map sanitize_entry record.
Proof.
  intros N P. apply (sanitizeKeys_in_order_from record []); assumption.
Qed.

(** ** Key normalisation *)

(** C5: [sanitizeKeys] maps every key by removing all whitespace
    characters and lower-casing only the first remaining character, the
    rest of the key unchanged: [" Reference "] becomes [reference] and
    [AccountNumber] becomes [accountNumber]; applying it twice to a raw
    field map gives the same result as applying it once. *)
Theorem sanitizeKeys_normalizes_and_is_idempotent :
  sanitizeKey " Reference " = "reference"%string
  /\ sanitizeKey "AccountNumber" = "accountNumber"%string
  /\ (forall key,
        sanitizeKey key
        = match remove_whitespace key with
          | EmptyString => EmptyString
          | String c r => String (lower_char c) r
          end
        /\ list_ascii_of_string (remove_whitespace key)
           = filter (fun c => negb (is_whitespace c)) (list_ascii_of_string key)
        /\ forall c, In c (list_ascii_of_string (sanitizeKey key)) ->
                     is_whitespace c = false)
  /\ (forall record k,
        In k (keys (sanitizeKeys record)) ->
        exists k0, In k0 (keys record) /\ k = sanitizeKey k0)
  /\ (forall record, sanitizeKeys (sanitizeKeys record) = sanitizeKeys record).
Proof.
  split; [reflexivity|]. split; [reflexivity|]. split; [|split].
  - intros key. split; [apply sanitizeKey_shape|].
    split; [apply remove_whitespace_filter | apply sanitizeKey_no_whitespace].
  - intros record k H. now apply sanitizeKeys_keys in H.
  - apply sanitizeKeys_idempotent.
Qed.


(** ** The two loops of [processFile] *)

Lemma safeParse_issues (record : object) :
  Zod.safeParse localeError accountRecordSchema (sanitizeKeys record)
  = if structurally_valid record then Zod.parse_success
    else Zod.parse_failure {| Zod.issues := structural_issues record |}.
Proof.
  unfold structurally_valid, Zod.safeParse, structural_issues.
  now destruct (Zod.object_issues _ _ _).
Qed.

Lemma validation_fold (type : string) (records acc : list object) :
  fold_left (validation_step type) records acc
  = acc ++ map (structural_error_record type)
             (filter (fun r => negb (structurally_valid r)) records).
Proof.
  revert acc. induction records as [|r rest IH]; simpl; intros acc.
  - now rewrite app_nil_r.
  - rewrite IH. unfold validation_step. rewrite safeParse_issues.
    destruct (structurally_valid r); simpl; [reflexivity|].
    now rewrite <- app_assoc.
Qed.

Lemma filter_nil_iff {A : Type} (f : A -> bool) (l : list A) :
  filter f l = [] <-> forall x, In x l -> f x = false.
Proof.
  induction l as [|a l IH]; simpl; [tauto|].
  destruct (f a) eqn:E; split.
  - discriminate.
  - intros H. specialize (H a (or_introl eq_refl)). congruence.
  - intros H x [<- | Hx]; [assumption | now apply IH].
  - intros H. apply IH. intros x Hx. apply H. now right.
Qed.

Lemma prefix_append (p s : string) : String.prefix p (p ++ s)%string = true.
Proof.
  induction p as [|a p IH]; simpl; [now destruct s|].
  destruct (ascii_dec a a); [assumption | congruence].
Qed.

Lemma prefix_first_char (a b : ascii) (p q m : string) :
  a <> b -> String.prefix (String a p) m = true ->
  String.prefix (String b q) m = false.
Proof.
  intros N. destruct m as [|c m]; cbn [String.prefix]; [discriminate|].
  destruct (ascii_dec a c), (ascii_dec b c); congruence.
Qed.

Lemma validateEndBalance_nonempty (record : object) (e : string) :
  validateEndBalance record = Some e ->
  e = "Invalid number format for balance or mutation."%string
  \/ String.prefix "Mismatching end balance: Expected: " e = true.
Proof.
  unfold validateEndBalance.
  destruct (isNaN _ || isNaN _ || isNaN _)%bool.
  - intros H. injection H as <-. now left.
  - destruct (negb _); [|discriminate].
    intros H. injection H as <-. right.
    apply (prefix_append "Mismatching end balance: Expected: ").
Qed.

Lemma validateEndBalance_truthy (record : object) (e : string) :
  validateEndBalance record = Some e -> truthy (Some e) = true.
Proof.
  intros H. apply validateEndBalance_nonempty in H. destruct H as [-> | H].
  - reflexivity.
  - destruct e; [discriminate | reflexivity].
Qed.

Lemma number_eqb_eq (x y : number) : number_eqb x y = true <-> x = y.
Proof.
  destruct x, y; simpl; split; try discriminate; try reflexivity.
  - intros H. apply Bool.eqb_prop in H. now subst.
  - intros H. injection H as ->. now destruct s0.
  - intros H. apply Bool.eqb_prop in H. now subst.
  - intros H. injection H as ->. now destruct s0.
  - rewrite !andb_true_iff. intros [[H1 H2] H3].
    apply Bool.eqb_prop in H1. apply Pos.eqb_eq in H2. apply Z.eqb_eq in H3.
    now subst.
  - intros H. injection H as -> -> ->.
    rewrite Pos.eqb_refl, Z.eqb_refl. now destruct s0.
Qed.

Lemma number_eqb_sym (x y : number) : number_eqb x y = number_eqb y x.
Proof.
  destruct (number_eqb x y) eqn:A, (number_eqb y x) eqn:B; try reflexivity.
  - apply number_eqb_eq in A. subst y.
    rewrite (proj2 (number_eqb_eq x x) eq_refl) in B. discriminate.
  - apply number_eqb_eq in B. subst y.
    rewrite (proj2 (number_eqb_eq x x) eq_refl) in A. discriminate.
Qed.

Lemma SameValueZero_sym (a b : value) :
  SameValueZero a b = SameValueZero b a.
Proof.
  destruct a as [|s|x], b as [|t|y]; simpl; try reflexivity.
  - apply String.eqb_sym.
  - destruct x, y; try reflexivity; apply number_eqb_sym.
Qed.

Lemma SameValueZero_trans (a b c : value) :
  SameValueZero a b = true -> SameValueZero b c = true ->
  SameValueZero a c = true.
Proof.
  destruct a as [|s|x], b as [|t|y], c as [|u|z]; simpl;
    try discriminate; try reflexivity.
  - intros H1 H2. apply String.eqb_eq in H1, H2. subst. apply String.eqb_refl.
  - destruct x, y; try discriminate; destruct z; try discriminate;
      try reflexivity; intros H1 H2;
      apply number_eqb_eq in H1; apply number_eqb_eq in H2;
      apply number_eqb_eq; congruence.
Qed.

Lemma set_models_step (s : list value) (earlier : list object) (r : object) :
  set_models s earlier ->
  set_models
    (if Set_has s (reference_of r) then s else Set_add s (reference_of r))
    (earlier ++ [r]).
Proof.
  intros M v. rewrite existsb_app. simpl. rewrite orb_false_r.
  destruct (Set_has s (reference_of r)) eqn:E.
  - rewrite M. destruct (SameValueZero v (reference_of r)) eqn:F.
    + rewrite orb_true_r. rewrite <- M.
      unfold Set_has in *. apply existsb_exists in E.
      destruct E as [x [Hx E]]. apply existsb_exists. exists x.
      split; [assumption|]. now apply (SameValueZero_trans _ (reference_of r)).
    + now rewrite orb_false_r.
  - unfold Set_add. rewrite E. unfold Set_has. rewrite existsb_app. simpl.
    rewrite orb_false_r. fold (Set_has s v). now rewrite M.
Qed.

Lemma consistency_step_report (type : string) (s : list value)
  (earlier errs : list object) (r : object) :
  set_models s earlier ->
  consistency_step type (s, errs) r
  = (if Set_has s (reference_of r) then s else Set_add s (reference_of r),
     errs ++ match consistency_errors earlier r with
             | [] => []
             | errors =>
                 [errorRecord (arrange type (sanitizeKeys r))
                    (join errors_separator errors)]
             end).
Proof.
  intros M. unfold consistency_step, consistency_errors, seen_before.
  fold (reference_of r). rewrite <- (M (reference_of r)).
  destruct (Set_has s (reference_of r)) eqn:E;
    destruct (validateEndBalance (sanitizeKeys r)) as [e|] eqn:V;
    try rewrite (validateEndBalance_truthy _ _ V); simpl;
    try rewrite app_nil_r; reflexivity.
Qed.

Lemma consistency_fold (type : string) (records : list object) :
  forall (s : list value) (earlier errs : list object),
    set_models s earlier ->
    snd (fold_left (consistency_step type) records (s, errs))
    = errs ++ consistency_report type earlier records.
Proof.
  induction records as [|r rest IH]; intros s earlier errs M.
  - simpl. now rewrite app_nil_r.
  - cbn [fold_left consistency_report].
    rewrite (consistency_step_report type s earlier errs r M).
    rewrite (IH _ (earlier ++ [r]) _ (set_models_step s earlier r M)).
    now rewrite <- app_assoc.
Qed.

Lemma processFile_cases (records : list object) (type : string) :
  processFile records type
  = match filter (fun r => negb (structurally_valid r)) records with
    | [] => consistency_report type [] records
    | invalid => map (structural_error_record type) invalid
    end.
Proof.
  unfold processFile. rewrite validation_fold. simpl.
  destruct (filter _ records) eqn:F; simpl; [|reflexivity].
  rewrite (consistency_fold type records [] [] []); [reflexivity|].
  intros v. reflexivity.
Qed.

Lemma append_assoc (a b c : string) :
  ((a ++ b) ++ c)%string = (a ++ b ++ c)%string.
Proof. induction a as [|x a IH]; simpl; [reflexivity | now rewrite IH]. Qed.

Lemma join_cons_prefix (sep p : string) (rest : list string) :
  exists tail, join sep (p :: rest) = (p ++ tail)%string.
Proof.
  destruct rest as [|q rest].
  - exists EmptyString. simpl. induction p; simpl; congruence.
  - now exists (sep ++ join sep (q :: rest))%string.
Qed.

Lemma formatZodErrors_prefix (i : Zod.ZodIssue) (l : list Zod.ZodIssue) :
  String.prefix "Field - " (formatZodErrors {| Zod.issues := i :: l |}) = true.
Proof.
  unfold formatZodErrors. cbn [Zod.issues map].
  destruct (join_cons_prefix " | "
              ("Field - " ++ join "." (Zod.path i) ++ " Error - "
                 ++ Zod.message i)
              (map (fun issue =>
                      ("Field - " ++ join "." (Zod.path issue) ++ " Error - "
                         ++ Zod.message issue)%string) l)) as [tail ->].
  rewrite append_assoc. apply (prefix_append "Field - ").
Qed.

Lemma get_errorRecord (arrangedRecord : object) (errors : string) :
  get (errorRecord arrangedRecord errors) "errors" = VString errors.
Proof. unfold errorRecord. apply get_define. Qed.

(** ** The two-phase policy *)

(** C1: if at least one record fails the structural validation, the
    report of [processFile] is exactly the records that fail it, each
    with its structural messages, in the order of the input; no record
    of the report carries a duplicate or a balance error, the errors of
    every one being a list of entries ["Field - ..."]. *)
Theorem structural_failures_are_the_whole_report
  (records : list object) (type : string) :
  (exists r, In r records /\ structurally_valid r = false) ->
  processFile records type
  = map (structural_error_record type)
      (filter (fun r => negb (structurally_valid r)) records)
  /\ Forall
       (fun e => exists r msg,
            In r records /\ structurally_valid r = false
            /\ e = structural_error_record type r
            /\ get e "errors" = VString msg
            /\ msg = formatZodErrors {| Zod.issues := structural_issues r |}
            /\ String.prefix "Field - " msg = true)
       (processFile records type).
Proof.
  intros [r [Hr Vr]].
  assert (E : processFile records type
              = map (structural_error_record type)
                  (filter (fun r => negb (structurally_valid r)) records)).
  { rewrite processFile_cases.
    destruct (filter _ records) eqn:F; [|reflexivity].
    exfalso. rewrite filter_nil_iff in F. specialize (F r Hr).
    rewrite Vr in F. discriminate. }
  split; [exact E|]. rewrite E. apply Forall_forall.
  intros e He. apply in_map_iff in He. destruct He as [x [<- Hx]].
  apply filter_In in Hx. destruct Hx as [Hx Vx].
  apply negb_true_iff in Vx.
  exists x, (formatZodErrors {| Zod.issues := structural_issues x |}).
  repeat split; try assumption.
  - apply get_errorRecord.
  - unfold structurally_valid, Zod.safeParse in Vx.
    fold (structural_issues x) in Vx.
    destruct (structural_issues x) as [|i l]; [discriminate|].
    apply formatZodErrors_prefix.
Qed.

Lemma validateEndBalance_not_duplicate (record : object) :
  validateEndBalance record <> Some "Duplicate record"%string.
Proof.
  intros H. apply validateEndBalance_nonempty in H.
  destruct H as [H | H]; discriminate.
Qed.

Lemma duplicate_flag (earlier : list object) (r : object) :
  In "Duplicate record"%string (consistency_errors earlier r)
  <-> seen_before earlier r = true.
Proof.
  unfold consistency_errors. destruct (seen_before earlier r); simpl.
  - tauto.
  - split; [|discriminate].
    pose proof (validateEndBalance_not_duplicate (sanitizeKeys r)) as N.
    destruct (validateEndBalance (sanitizeKeys r)); simpl; [|tauto].
    intros [-> | []]. congruence.
Qed.

Lemma all_valid_report (records : list object) (type : string) :
  (forall r, In r records -> structurally_valid r = true) ->
  processFile records type = consistency_report type [] records.
Proof.
  intros V. rewrite processFile_cases.
  assert (F : filter (fun r => negb (structurally_valid r)) records = []).
  { apply filter_nil_iff. intros x Hx. now rewrite (V x Hx). }
  now rewrite F.
Qed.

Lemma consistency_report_entries (type : string) (records earlier : list object)
  (e : object) :
  In e (consistency_report type earlier records) ->
  exists before r after,
    records = before ++ r :: after
    /\ consistency_errors (earlier ++ before) r <> []
    /\ e = errorRecord (arrange type (sanitizeKeys r))
             (join errors_separator (consistency_errors (earlier ++ before) r)).
Proof.
  revert earlier. induction records as [|r rest IH]; simpl; intros earlier H.
  - contradiction.
  - apply in_app_or in H. destruct H as [H | H].
    + exists [], r, rest. rewrite app_nil_r.
      destruct (consistency_errors earlier r) eqn:C; [contradiction|].
      destruct H as [<- | []]. repeat split. discriminate.
    + apply IH in H. destruct H as [before [x [after [-> [N ->]]]]].
      exists (r :: before), x, after. rewrite <- app_assoc in *.
      repeat split; assumption.
Qed.

Lemma consistency_report_complete (type : string)
  (records earlier before : list object) (r : object) (after : list object) :
  records = before ++ r :: after ->
  consistency_errors (earlier ++ before) r <> [] ->
  In (errorRecord (arrange type (sanitizeKeys r))
        (join errors_separator (consistency_errors (earlier ++ before) r)))
    (consistency_report type earlier records).
Proof.
  revert records earlier. induction before as [|b before IH];
    intros records earlier -> N; cbn [app consistency_report].
  - rewrite app_nil_r in *. apply in_or_app. left.
    destruct (consistency_errors earlier r); [congruence | now left].
  - apply in_or_app. right.
    specialize (IH (before ++ r :: after) (earlier ++ [b]) eq_refl).
    rewrite <- app_assoc in IH. now apply IH.
Qed.

(** C2: with no structural failure, among the records that share a
    reference [processFile] flags exactly the second and later ones, in
    the order of the input, with ["Duplicate record"], and never the
    first; the set of references is empty when an invocation starts. *)
Theorem duplicates_flag_later_occurrences
  (records : list object) (type : string) :
  (forall r, In r records -> structurally_valid r = true) ->
  processFile records type = consistency_report type [] records
  /\ (forall earlier r later,
        records = earlier ++ r :: later ->
        (In "Duplicate record"%string (consistency_errors earlier r)
         <-> exists r', In r' earlier
                        /\ SameValueZero (reference_of r) (reference_of r')
                           = true))
  /\ (forall earlier r later,
        records = earlier ++ r :: later ->
        seen_before earlier r = true ->
        exists msg,
          In (errorRecord (arrange type (sanitizeKeys r)) msg)
            (processFile records type)
          /\ String.prefix "Duplicate record" msg = true)
  /\ (forall r later,
        records = r :: later ->
        ~ In "Duplicate record"%string (consistency_errors [] r)).
Proof.
  intros V. split; [now apply all_valid_report|]. split; [|split].
  - intros earlier r later _. rewrite duplicate_flag.
    unfold seen_before. rewrite existsb_exists. reflexivity.
  - intros earlier r later E S.
    rewrite (all_valid_report records type V).
    exists (join errors_separator (consistency_errors earlier r)). split.
    + apply (consistency_report_complete type records [] earlier r later E).
      cbn [app]. unfold consistency_errors. rewrite S. discriminate.
    + unfold consistency_errors. rewrite S.
      destruct (join_cons_prefix errors_separator "Duplicate record"
                  match validateEndBalance (sanitizeKeys r) with
                  | Some e => [e]
                  | None => []
                  end) as [tail T].
      cbn [app]. rewrite T. apply prefix_append.
  - intros r later _. rewrite duplicate_flag. discriminate.
Qed.

(** C10: the duplicate detection compares the references as they are
    after the normalisation of the keys, not the numbers they coerce to:
    in a file without structural failure whose raw references differ
    pairwise (as ["1"] and ["01"] do, or ["1"] and [1]), no record is
    flagged as a duplicate. *)
Theorem duplicates_compare_raw_references
  (records : list object) (type : string) :
  (forall r, In r records -> structurally_valid r = true) ->
  (forall earlier r later r',
     records = earlier ++ r :: later -> In r' earlier ->
     SameValueZero (reference_of r) (reference_of r') = false) ->
  Forall
    (fun e => exists msg,
         get e "errors" = VString msg
         /\ String.prefix "Duplicate record" msg = false)
    (processFile records type).
Proof.
  intros V D. rewrite (all_valid_report records type V).
  apply Forall_forall. intros e He.
  apply consistency_report_entries in He.
  destruct He as [before [r [after [E [N ->]]]]]. simpl in N |- *.
  exists (join errors_separator (consistency_errors before r)).
  split; [apply get_errorRecord|].
  assert (S : seen_before before r = false).
  { unfold seen_before. apply not_true_is_false. intros H.
    apply existsb_exists in H. destruct H as [r' [Hr' H]].
    rewrite (D before r after r' E Hr') in H. discriminate. }
  unfold consistency_errors in *. rewrite S in *. simpl in *.
  destruct (validateEndBalance (sanitizeKeys r)) as [m|] eqn:B;
    [|congruence].
  simpl. apply validateEndBalance_nonempty in B.
  destruct B as [-> | B]; [reflexivity|].
  revert B. apply prefix_first_char. discriminate.
Qed.

(** ** The order of the fields of an error record *)

Lemma processFile_entries (records : list object) (type : string) (e : object) :
  In e (processFile records type) ->
  exists r msg,
    In r records /\ e = errorRecord (arrange type (sanitizeKeys r)) msg.
Proof.
  rewrite processFile_cases.
  destruct (filter (fun r => negb (structurally_valid r)) records) eqn:F.
  - intros H. apply consistency_report_entries in H.
    destruct H as [before [r [after [-> [_ ->]]]]].
    exists r. eexists. split; [|reflexivity].
    apply in_or_app. right. now left.
  - rewrite <- F. intros H. apply in_map_iff in H.
    destruct H as [r [<- Hr]]. apply filter_In in Hr.
    exists r. eexists. split; [tauto | reflexivity].
Qed.

Lemma insert_index_reference_leads (i : Z) (k : string) (v : value)
  (o : object) :
  array_index k = Some i -> reference_leads (keys o) ->
  reference_leads (keys (insert_index i k v o)).
Proof.
  intros Hk [idx [rest [E F]]]. revert o E.
  induction idx as [|a idx IH]; intros o E.
  - destruct o as [|[k' v'] r]; [discriminate|].
    simpl in E. injection E as -> E. cbn [insert_index].
    change (array_index "reference") with (@None Z). cbv iota.
    exists [k], (keys r). split.
    + simpl. now rewrite E.
    + constructor; [congruence | constructor].
  - destruct o as [|[k' v'] r]; [discriminate|].
    simpl in E. injection E as -> E. cbn [insert_index].
    inversion F as [|? ? Fa Fi]; subst.
    destruct (array_index a) as [j|] eqn:Ha; [|congruence].
    destruct (i <? j)%Z.
    + exists (k :: a :: idx), rest. simpl. split; [now rewrite E|].
      constructor; [congruence | assumption].
    + destruct (IH Fi r E) as [idx' [rest' [E' F']]].
      exists (a :: idx'), rest'. simpl. split; [now rewrite E'|].
      constructor; [congruence | assumption].
Qed.

Lemma define_reference_leads (k : string) (v : value) (o : object) :
  reference_leads (keys o) -> reference_leads (keys (define k v o)).
Proof.
  intros R. unfold define. destruct (has_key k o).
  - now rewrite keys_update.
  - destruct (array_index k) as [i|] eqn:Hk.
    + now apply insert_index_reference_leads.
    + destruct R as [idx [rest [E F]]].
      exists idx, (rest ++ [k]). split; [|assumption].
      unfold keys in *. rewrite map_app, E, <- app_assoc. reflexivity.
Qed.

Lemma spread_reference_leads (src o : object) :
  reference_leads (keys o) -> reference_leads (keys (spread src o)).
Proof.
  intros R. unfold spread. apply fold_left_invariant; [assumption|].
  intros x y Hx _. now apply define_reference_leads.
Qed.

Lemma spread_preserves_well_formed (src o : object) :
  well_formed o -> well_formed (spread src o).
Proof.
  intros W. unfold spread. apply fold_left_invariant; [assumption|].
  intros x y Hx _. now apply define_well_formed.
Qed.

Lemma reorderRecordForXml_well_formed (record : object) :
  well_formed (reorderRecordForXml record).
Proof.
  unfold reorderRecordForXml.
  apply spread_preserves_well_formed, define_well_formed, well_formed_nil.
Qed.

Lemma reorderRecordForXml_reference_leads (record : object) :
  reference_leads (keys (reorderRecordForXml record)).
Proof.
  unfold reorderRecordForXml. apply spread_reference_leads.
  exists [], []. split; [reflexivity | constructor].
Qed.

Lemma keys_errorRecord (o : object) (errors : string) :
  well_formed o ->
  keys (errorRecord o errors)
  = keys o ++ (if has_key "errors" o then [] else ["errors"%string]).
Proof.
  intros W. unfold errorRecord. rewrite (spread_well_formed o W).
  unfold define. destruct (has_key "errors" o).
  - now rewrite keys_update, app_nil_r.
  - change (array_index "errors") with (@None Z).
    unfold keys. now rewrite map_app.
Qed.

(** C8, amended: in every error record of an XML input, of either
    phase, only field names that are array indices come before
    [reference] in the iteration order, so that [reference] is the first
    key when no field name is one; an error record of a CSV input keeps
    the fields of its sanitized record in their order, [errors] coming
    last when the record has no field of that name, and this order is
    the order of the fields of the source record when their sanitized
    names are pairwise distinct and none is an array index or
    [__proto__]. *)
Theorem error_record_field_order (records : list object) :
  (forall e, In e (processFile records "xml") ->
     reference_leads (keys e)
     /\ ((forall k, In k (keys e) -> array_index k = None) ->
         exists rest, keys e = "reference"%string :: rest))
  /\ (forall e, In e (processFile records "csv") ->
        exists r,
          In r records
          /\ keys e
             = keys (sanitizeKeys r)
                 ++ (if has_key "errors" (sanitizeKeys r) then []
                     else ["errors"%string])
          /\ (NoDup (map sanitizeKey (keys r)) ->
              (forall k, In k (keys r) ->
                 array_index (sanitizeKey k) = None
                 /\ sanitizeKey k <> "__proto__"%string) ->
              keys (sanitizeKeys r) = map sanitizeKey (keys r))).
Proof.
  split.
  - intros e He. apply processFile_entries in He.
    destruct He as [r [msg [_ ->]]]. unfold arrange. simpl.
    assert (R : reference_leads
                  (keys (errorRecord (reorderRecordForXml (sanitizeKeys r)) msg))).
    { unfold errorRecord.
      rewrite (spread_well_formed _ (reorderRecordForXml_well_formed _)).
      apply define_reference_leads, reorderRecordForXml_reference_leads. }
    split; [exact R|]. intros N.
    destruct R as [[|a idx] [rest [E F]]].
    + now exists rest.
    + exfalso. inversion F as [|? ? Fa _]; subst. apply Fa, N.
      rewrite E. now left.
  - intros e He. apply processFile_entries in He.
    destruct He as [r [msg [Hr ->]]]. exists r. split; [assumption|].
    split.
    + unfold arrange. simpl.
      apply keys_errorRecord, sanitizeKeys_well_formed.
    + intros N P. rewrite (sanitizeKeys_in_order r N P).
      unfold keys. rewrite !map_map. reflexivity.
Qed.

(** ** The structural validation *)

Lemma formatZodErrors_entries (shape : list (string * Zod.schema))
  (input : object) :
  map (fun issue =>
         ("Field - " ++ join "." (Zod.path issue) ++ " Error - "
            ++ Zod.message issue)%string)
      (Zod.object_issues localeError shape input)
  = flat_map (fun f => field_entries f input) shape.
Proof.
  unfold Zod.object_issues, field_entries.
  induction shape as [|f shape IH]; [reflexivity|].
  cbn [flat_map]. rewrite map_app, IH, map_map. reflexivity.
Qed.

Lemma run_checks_extends (checks : list Zod.check) (x : number)
  (issues : list Zod.raw_issue) :
  issues <> [] -> Zod.run_checks checks x issues <> [].
Proof.
  revert issues. induction checks as [|ch rest IH]; simpl; intros issues N.
  - assumption.
  - destruct (Zod.aborted issues); apply IH; [assumption|].
    destruct issues; [congruence | discriminate].
Qed.

Lemma lt_zero_not_ge (x : number) :
  lt x (S754_zero false) = true -> ge x (S754_zero false) = false.
Proof.
  unfold lt, ge, SFltb, SFleb.
  destruct x as [s|s| |s m e]; try destruct s; simpl; congruence.
Qed.

Lemma reference_checks_reject (x : number) :
  lt x (S754_zero false) = true \/ isInteger x = false ->
  Zod.run_checks [Zod.int; Zod.nonnegative] x [] <> [].
Proof.
  intros H. cbn [Zod.run_checks Zod.aborted existsb app].
  destruct (isInteger x) eqn:I.
  - destruct H as [H | H]; [|discriminate].
    apply lt_zero_not_ge in H.
    unfold Zod.int. rewrite I. cbn [negb].
    destruct (negb (isSafeInteger x)).
    + destruct (gt x (S754_zero false)); cbn; unfold Zod.nonnegative;
        rewrite H; discriminate.
    + cbn. unfold Zod.nonnegative. rewrite H. discriminate.
  - assert (N : Zod.int x <> []) by (unfold Zod.int; rewrite I; discriminate).
    match goal with |- context [if ?c then _ else _] => destruct c end.
    + exact N.
    + destruct (Zod.int x); [congruence | discriminate].
Qed.

Lemma field_entries_count (f : string * Zod.schema) (input : object) :
  In f accountRecordSchema ->
  (List.length (field_entries f input)
   <= if String.eqb (fst f) "reference" then 2 else 1)%nat.
Proof.
  unfold field_entries. rewrite length_map.
  intros H. simpl in H.
  destruct H as [<- | [<- | [<- | [<- | [<- | [<- | []]]]]]];
    cbn [fst snd String.eqb Ascii.eqb Bool.eqb Zod.parse_field Zod.run_checks];
    try (destruct (get input _); simpl; lia);
    try (destruct (negb _ && _)%bool; simpl; lia).
  destruct (negb _ && _)%bool; [|simpl; lia].
  cbn [Zod.aborted existsb app].
  set (x := Number (get input "reference")).
  unfold Zod.int. destruct (negb (isInteger x)); [simpl; lia|].
  destruct (negb (isSafeInteger x));
    [destruct (gt x (S754_zero false))|];
    cbn; unfold Zod.nonnegative; destruct (ge x (S754_zero false));
    simpl; lia.
Qed.

(** C9, amended: the structural validation collects the issues of all
    the fields, not only of the first one that fails; the error string
    is the entries ["Field - <path> Error - <message>"] of these issues,
    in the order of the schema, joined with [" | "]; a failing field
    has one entry, and [reference] one or two; a record whose reference
    coerces to a negative number or to no integer fails the structural
    validation. *)
Theorem structural_errors_list_all_fields (record : object) :
  formatZodErrors
    {| Zod.issues := Zod.object_issues localeError accountRecordSchema record |}
  = join " | " (flat_map (fun f => field_entries f record) accountRecordSchema)
  /\ (forall f,
        In f accountRecordSchema ->
        Zod.parse_field (snd f) (get record (fst f)) <> [] ->
        (1 <= List.length (field_entries f record)
         <= if String.eqb (fst f) "reference" then 2 else 1)%nat)
  /\ (lt (Number (get record "reference")) (S754_zero false) = true
      \/ isInteger (Number (get record "reference")) = false ->
      Zod.success (Zod.safeParse localeError accountRecordSchema record)
      = false).
Proof.
  split; [|split].
  - unfold formatZodErrors. cbn [Zod.issues].
    now rewrite formatZodErrors_entries.
  - intros f Hf N. split; [|now apply field_entries_count].
    unfold field_entries. rewrite length_map.
    destruct (Zod.parse_field _ _); [congruence | simpl; lia].
  - intros H. unfold Zod.safeParse, Zod.object_issues.
    cbn [accountRecordSchema flat_map fst snd].
    assert (N : Zod.parse_field (Zod.number_schema true [Zod.int; Zod.nonnegative])
                  (get record "reference") <> []).
    { cbn [Zod.parse_field].
      destruct (negb _ && _)%bool; [|discriminate].
      now apply reference_checks_reject. }
    destruct (Zod.parse_field _ (get record "reference"));
      [congruence | reflexivity].
Qed.

(** ** The XML adapter *)

(** C7: when the parse of an XML input has no [records] root, or a
    [records] element that is text, or no [record] under [records],
    [parseXml] processes zero records and returns the empty report; it
    raises no error. *)
Theorem parseXml_without_records (xmlString : string) (result : xml_value) :
  XMLParser_parse xmlString = Some result ->
  optional_get result "records" = XUndefined
  \/ (exists v, optional_get result "records" = XPrimitive v)
  \/ optional_get (optional_get result "records") "record" = XUndefined ->
  parseXml xmlString = Some [].
Proof.
  intros P H. unfold parseXml. rewrite P.
  assert (E : optional_get (optional_get result "records") "record"
              = XUndefined).
  { destruct H as [-> | [[v ->] | H]]; [reflexivity | reflexivity | exact H]. }
  rewrite E. reflexivity.
Qed.

(** ** The balance check *)

(** C4, amended: [validateEndBalance] returns the error
    ["Invalid number format for balance or mutation."] exactly when one
    of [startBalance], [mutation] and [endBalance] coerces to NaN; the
    balances are then not compared. *)
Theorem validateEndBalance_rejects_NaN (record : object) :
  (isNaN (Number (get record "startBalance"))
   || isNaN (Number (get record "mutation"))
   || isNaN (Number (get record "endBalance")))%bool = true
  <-> validateEndBalance record
      = Some "Invalid number format for balance or mutation."%string.
Proof.
  unfold validateEndBalance.
  destruct (isNaN _ || isNaN _ || isNaN _)%bool.
  - tauto.
  - split; [discriminate|].
    destruct (negb _); discriminate.
Qed.

(** *** Two decimals *)

Lemma string_of_uint_digits (u : Decimal.uint) :
  digits_only (NilEmpty.string_of_uint u) = true.
Proof. induction u; simpl; auto. Qed.

Lemma digits_only_app (a b : string) :
  digits_only (a ++ b)%string = (digits_only a && digits_only b)%bool.
Proof.
  induction a as [|c a IH]; simpl; [reflexivity|].
  now rewrite IH, andb_assoc.
Qed.

Lemma digits_only_zeros (k : nat) : digits_only (zeros k) = true.
Proof. induction k; simpl; auto. Qed.

Lemma keep_digits_app (a b : string) :
  keep_digits (a ++ b)%string = (keep_digits a ++ keep_digits b)%string.
Proof.
  induction a as [|c a IH]; simpl; [reflexivity|].
  destruct (is_digit c); simpl; now rewrite IH.
Qed.

Lemma keep_digits_id (s : string) : digits_only s = true -> keep_digits s = s.
Proof.
  induction s as [|c s IH]; simpl; [reflexivity|].
  intros H. apply andb_true_iff in H. destruct H as [H1 H2].
  now rewrite H1, IH.
Qed.

Lemma take_drop (j : nat) (s : string) : (take j s ++ drop j s)%string = s.
Proof.
  revert s. induction j as [|j IH]; intros [|c s]; simpl; try reflexivity.
  now rewrite IH.
Qed.

Lemma length_append (a b : string) :
  String.length (a ++ b)%string = (String.length a + String.length b)%nat.
Proof. induction a as [|c a IH]; simpl; [reflexivity | now rewrite IH]. Qed.

Lemma length_zeros (k : nat) : String.length (zeros k) = k.
Proof. induction k; simpl; auto. Qed.

Lemma digits_number_zeros (k : nat) (d : string) :
  digits_number (zeros k ++ d)%string = digits_number d.
Proof.
  induction k as [|k IH]; simpl; [reflexivity|].
  rewrite <- IH. unfold digits_number. simpl.
  now destruct (NilEmpty.uint_of_string (zeros k ++ d)).
Qed.

Lemma digits_number_decimal (n : Z) :
  digits_number (decimal_string n) = Some (Z.to_N n).
Proof.
  unfold digits_number, decimal_string. rewrite NilEmpty.usu. simpl.
  now rewrite DecimalN.Unsigned.of_to.
Qed.

(** The padded digits of [two_decimals]. *)
Lemma two_decimals_digits (n : Z) :
  keep_digits (two_decimals n)
  = (zeros (3 - String.length (decimal_string n)) ++ decimal_string n)%string.
Proof.
  unfold two_decimals.
  set (m := (zeros (3 - String.length (decimal_string n))
               ++ decimal_string n)%string).
  rewrite !keep_digits_app. simpl.
  rewrite <- keep_digits_app, take_drop. apply keep_digits_id.
  unfold m. rewrite digits_only_app, digits_only_zeros. simpl.
  apply string_of_uint_digits.
Qed.

Lemma two_decimals_inj (n1 n2 : Z) :
  (0 <= n1)%Z -> (0 <= n2)%Z ->
  two_decimals n1 = two_decimals n2 -> n1 = n2.
Proof.
  intros P1 P2 E. apply (f_equal keep_digits) in E.
  rewrite !two_decimals_digits in E. apply (f_equal digits_number) in E.
  rewrite !digits_number_zeros, !digits_number_decimal in E.
  injection E as E. lia.
Qed.

Lemma two_decimals_first (n : Z) :
  exists c r, two_decimals n = String c r /\ is_digit c = true.
Proof.
  unfold two_decimals.
  set (m := (zeros (3 - String.length (decimal_string n))
               ++ decimal_string n)%string).
  assert (D : digits_only m = true).
  { unfold m. rewrite digits_only_app, digits_only_zeros. simpl.
    apply string_of_uint_digits. }
  assert (L : (3 <= String.length m)%nat).
  { unfold m. rewrite length_append, length_zeros. lia. }
  destruct m as [|c m]; [simpl in L; lia|].
  simpl in D. apply andb_true_iff in D. destruct D as [D _].
  simpl String.length. simpl in L.
  replace (S (String.length m) - 2)%nat
    with (S (String.length m - 2)) by lia.
  simpl. eauto.
Qed.

Lemma signed_two_decimals_inj (s1 s2 : bool) (n1 n2 : Z) :
  (0 <= n1)%Z -> (0 <= n2)%Z ->
  ((if s1 then "-" else "") ++ two_decimals n1)%string
  = ((if s2 then "-" else "") ++ two_decimals n2)%string ->
  s1 = s2 /\ n1 = n2.
Proof.
  intros P1 P2.
  destruct (two_decimals_first n1) as [c1 [r1 [E1 D1]]].
  destruct (two_decimals_first n2) as [c2 [r2 [E2 D2]]].
  destruct s1, s2; simpl; intros E.
  - injection E as E. split; [reflexivity | now apply two_decimals_inj].
  - rewrite E2 in E. injection E as <- _. discriminate.
  - rewrite E1 in E. injection E as -> _. discriminate.
  - split; [reflexivity | now apply two_decimals_inj].
Qed.

Lemma magnitude_ratio_positive (sg : bool) (m : positive) (e : Z) :
  (0 < fst (magnitude_ratio (S754_finite sg m e)))%Z
  /\ (0 < snd (magnitude_ratio (S754_finite sg m e)))%Z.
Proof.
  cbn [magnitude_ratio]. destruct (0 <=? e)%Z eqn:E; cbn [fst snd].
  - apply Z.leb_le in E. split; [|lia].
    apply Z.mul_pos_pos; [lia | now apply Z.pow_pos_nonneg].
  - apply Z.leb_gt in E. split; [lia|].
    apply Z.pow_pos_nonneg; lia.
Qed.

Lemma toFixed2_below_1e21 (x : number) :
  below_1e21 x = true ->
  toFixed2 x
  = ((if fst (rounded_hundredths x) then "-" else "")
       ++ two_decimals (snd (rounded_hundredths x)))%string
  /\ (0 <= snd (rounded_hundredths x))%Z.
Proof.
  destruct x as [s|s| |sg m e]; try discriminate.
  - intros _. split; [reflexivity | simpl; lia].
  - destruct (magnitude_ratio_positive sg m e) as [Pp Pq].
    unfold below_1e21, toFixed2, rounded_hundredths.
    destruct (magnitude_ratio (S754_finite sg m e)) as [p q].
    simpl in Pp, Pq. intros B. apply Z.ltb_lt in B.
    replace (10 ^ 21 * q <=? p)%Z with false
      by (symmetry; apply Z.leb_gt; exact B).
    split; [reflexivity|]. simpl. unfold hundredths.
    apply Z.div_pos; lia.
Qed.

Lemma toFixed2_rounded_hundredths (x y : number) :
  below_1e21 x = true -> below_1e21 y = true ->
  (toFixed2 x = toFixed2 y <-> rounded_hundredths x = rounded_hundredths y).
Proof.
  intros Bx By.
  destruct (toFixed2_below_1e21 x Bx) as [Ex Px].
  destruct (toFixed2_below_1e21 y By) as [Ey Py].
  rewrite Ex, Ey. split.
  - intros E. apply signed_two_decimals_inj in E; try assumption.
    destruct (rounded_hundredths x), (rounded_hundredths y).
    simpl in E. destruct E. now subst.
  - now intros ->.
Qed.

(** *** The digits of [toFixed(2)] against the rounding of the value *)

Lemma Qfloor_half_up (p q : Z) :
  (0 < q)%Z ->
  Qfloor ((p # Z.to_pos q) * 100 + (1 # 2)) = hundredths p q.
Proof.
  intros Q. unfold hundredths, Qfloor, Qplus, Qmult. cbn [Qnum Qden].
  rewrite !Pos2Z.inj_mul, Z2Pos.id by assumption.
  f_equal; lia.
Qed.

Lemma magnitude_value (sg : bool) (m : positive) (e : Z) :
  (inject_Z (Zpos m) * Qpower 2 e
   == fst (magnitude_ratio (S754_finite sg m e))
      # Z.to_pos (snd (magnitude_ratio (S754_finite sg m e))))%Q.
Proof.
  cbn [magnitude_ratio]. destruct (0 <=? e)%Z eqn:E; cbn [fst snd].
  - apply Z.leb_le in E.
    change (Z.to_pos 1) with 1%positive.
    change 2%Q with (inject_Z 2). rewrite <- Zpower_Qpower by assumption.
    rewrite <- inject_Z_mult. reflexivity.
  - apply Z.leb_gt in E.
    assert (P : (0 < 2 ^ (- e))%Z) by (apply Z.pow_pos_nonneg; lia).
    replace e with (- (- e))%Z at 1 by lia.
    rewrite Qpower_opp. change 2%Q with (inject_Z 2).
    rewrite <- Zpower_Qpower by lia.
    rewrite Qmake_Qdiv. rewrite Z2Pos.id by assumption. reflexivity.
Qed.

Lemma magnitude_positive (sg : bool) (m : positive) (e : Z) :
  (0 < inject_Z (Zpos m) * Qpower 2 e)%Q.
Proof.
  rewrite (magnitude_value sg m e).
  destruct (magnitude_ratio_positive sg m e) as [Pp _].
  destruct (magnitude_ratio (S754_finite sg m e)) as [p q].
  cbn [fst snd] in *. unfold Qlt. simpl. lia.
Qed.

Lemma is_negative_finite (sg : bool) (m : positive) (e : Z) :
  is_negative (S754_finite sg m e) = sg.
Proof.
  pose proof (magnitude_positive sg m e) as P.
  unfold is_negative, value_of. cbv zeta.
  destruct sg; destruct (Qlt_le_dec _ 0) as [L | L]; try reflexivity.
  - exfalso. apply (Qlt_irrefl 0).
    apply Qlt_le_trans with (inject_Z (Zpos m) * Qpower 2 e)%Q; [assumption|].
    apply Qopp_le_compat in L. rewrite Qopp_involutive in L. exact L.
  - exfalso. apply (Qlt_irrefl 0). now apply Qlt_trans with (inject_Z (Zpos m) * Qpower 2 e)%Q.
Qed.

Lemma Qabs_value (sg : bool) (m : positive) (e : Z) :
  (Qabs (value_of (S754_finite sg m e))
   == fst (magnitude_ratio (S754_finite sg m e))
      # Z.to_pos (snd (magnitude_ratio (S754_finite sg m e))))%Q.
Proof.
  pose proof (magnitude_positive sg m e) as P.
  rewrite <- (magnitude_value sg m e).
  unfold value_of. cbv zeta. destruct sg.
  - rewrite Qabs_opp. apply Qabs_pos. now apply Qlt_le_weak.
  - apply Qabs_pos. now apply Qlt_le_weak.
Qed.

Lemma rounded_hundredths_spec (x : number) :
  isFinite x = true ->
  rounded_hundredths x
  = (is_negative x, Qfloor (Qabs (value_of x) * 100 + (1 # 2))).
Proof.
  destruct x as [s|s| |sg m e]; try discriminate; intros _.
  - reflexivity.
  - rewrite is_negative_finite.
    assert (E : Qfloor (Qabs (value_of (S754_finite sg m e)) * 100 + (1 # 2))
                = hundredths (fst (magnitude_ratio (S754_finite sg m e)))
                    (snd (magnitude_ratio (S754_finite sg m e)))).
    { rewrite <- Qfloor_half_up by apply magnitude_ratio_positive.
      apply Qfloor_comp. now rewrite Qabs_value. }
    rewrite E. unfold rounded_hundredths.
    now destruct (magnitude_ratio (S754_finite sg m e)).
Qed.

Lemma below_1e21_spec (x : number) :
  isFinite x = true ->
  (below_1e21 x = true <-> (Qabs (value_of x) < inject_Z (10 ^ 21))%Q).
Proof.
  destruct x as [s|s| |sg m e]; try discriminate; intros _.
  - split; [intros _; reflexivity | reflexivity].
  - rewrite Qabs_value. destruct (magnitude_ratio_positive sg m e) as [Pp Pq].
    unfold below_1e21.
    destruct (magnitude_ratio (S754_finite sg m e)) as [p q].
    cbn [fst snd] in *. rewrite Z.ltb_lt. unfold Qlt. cbn [Qnum Qden inject_Z].
    rewrite Z2Pos.id by assumption. lia.
Qed.

Lemma signed_pair_eq (b1 b2 : bool) (n1 n2 : Z) :
  (0 <= n1)%Z -> (0 <= n2)%Z ->
  ((b1, n1) = (b2, n2)
   <-> (if b1 then (- n1)%Z else n1) = (if b2 then (- n2)%Z else n2)
       /\ ((if b1 then (- n1)%Z else n1) = 0%Z -> b1 = b2)).
Proof.
  intros P1 P2. split.
  - intros E. injection E as -> ->. split; [reflexivity | auto].
  - intros [E Z0]. destruct b1, b2; f_equal; lia.
Qed.

Lemma rounded_hundredths_round_two_decimals (x y : number) :
  isFinite x = true -> isFinite y = true ->
  below_1e21 x = true -> below_1e21 y = true ->
  (rounded_hundredths x = rounded_hundredths y
   <-> round_two_decimals x = round_two_decimals y
       /\ (round_two_decimals x = 0%Z -> is_negative x = is_negative y)).
Proof.
  intros Fx Fy Bx By.
  destruct (toFixed2_below_1e21 x Bx) as [_ Px].
  destruct (toFixed2_below_1e21 y By) as [_ Py].
  rewrite (rounded_hundredths_spec x Fx) in *.
  rewrite (rounded_hundredths_spec y Fy) in *.
  cbn [snd] in Px, Py. unfold round_two_decimals. cbv zeta.
  now apply signed_pair_eq.
Qed.

(** C3: for a record whose three balances are finite numbers,
    [validateEndBalance] returns no error exactly when [toFixed(2)]
    gives the same string for [startBalance + mutation] and for
    [endBalance].  For magnitudes below 10^21 that is: the two values
    rounded to two decimals (the nearest hundredth, a half away from
    zero) are equal and, when they round to zero, both are below zero or
    neither is, since [toFixed(2)] writes a value below zero that rounds
    to zero as [-0.00].  On a mismatch the function returns
    ["Mismatching end balance: Expected: <sum>, Received: <endBalance>"],
    the sum not rounded. *)
Theorem validateEndBalance_compares_two_decimals (record : object) :
  let startBalance := Number (get record "startBalance") in
  let mutation := Number (get record "mutation") in
  let endBalance := Number (get record "endBalance") in
  isFinite startBalance = true -> isFinite mutation = true ->
  isFinite endBalance = true ->
  (validateEndBalance record = None
   <-> toFixed2 (add startBalance mutation) = toFixed2 endBalance)
  /\ (toFixed2 (add startBalance mutation) <> toFixed2 endBalance ->
      validateEndBalance record
      = Some ("Mismatching end balance: Expected: "
                ++ ToString (add startBalance mutation)
                ++ ", Received: " ++ ToString endBalance)%string)
  /\ (isFinite (add startBalance mutation) = true ->
      (Qabs (value_of (add startBalance mutation)) < inject_Z (10 ^ 21))%Q ->
      (Qabs (value_of endBalance) < inject_Z (10 ^ 21))%Q ->
      (validateEndBalance record = None
       <-> round_two_decimals (add startBalance mutation)
           = round_two_decimals endBalance
           /\ (round_two_decimals (add startBalance mutation) = 0%Z ->
               is_negative (add startBalance mutation)
               = is_negative endBalance))).
Proof.
  intros s m e Fs Fm Fe.
  assert (N : (isNaN s || isNaN m || isNaN e)%bool = false).
  { destruct s, m, e; try discriminate; reflexivity. }
  assert (V : validateEndBalance record
              = if negb (String.eqb (toFixed2 (add s m)) (toFixed2 e))
                then Some ("Mismatching end balance: Expected: "
                             ++ ToString (add s m)
                             ++ ", Received: " ++ ToString e)%string
                else None).
  { unfold validateEndBalance. fold s m e. now rewrite N. }
  assert (A : validateEndBalance record = None
              <-> toFixed2 (add s m) = toFixed2 e).
  { rewrite V. destruct (String.eqb_spec (toFixed2 (add s m)) (toFixed2 e));
      simpl; split; congruence. }
  split; [exact A|]. split.
  - intros D. rewrite V. apply String.eqb_neq in D. now rewrite D.
  - intros F B1 B2.
    apply (below_1e21_spec _ F) in B1. apply (below_1e21_spec _ Fe) in B2.
    rewrite A, (toFixed2_rounded_hundredths _ _ B1 B2).
    now apply rounded_hundredths_round_two_decimals.
Qed.

(** ** More on the schema and on [processFile] *)

Lemma flat_map_nil {A B : Type} (f : A -> list B) (l : list A) :
  flat_map f l = [] <-> forall x, In x l -> f x = [].
Proof.
  induction l as [|a l IH]; simpl; [tauto|].
  split.
  - intros H. apply app_eq_nil in H. destruct H as [H1 H2].
    intros x [<- | Hx]; [assumption | now apply IH].
  - intros H. rewrite (H a (or_introl eq_refl)). simpl.
    apply IH. intros x Hx. apply H. now right.
Qed.

Lemma map_nil {A B : Type} (f : A -> B) (l : list A) :
  map f l = [] <-> l = [].
Proof. destruct l; simpl; split; congruence. Qed.

Lemma safeParse_success (input : object) :
  Zod.success (Zod.safeParse localeError accountRecordSchema input) = true
  <-> forall f, In f accountRecordSchema ->
        Zod.parse_field (snd f) (get input (fst f)) = [].
Proof.
  unfold Zod.safeParse.
  destruct (Zod.object_issues localeError accountRecordSchema input) eqn:E.
  - split; [|reflexivity]. intros _ f Hf.
    unfold Zod.object_issues in E. rewrite flat_map_nil in E.
    specialize (E f Hf). now apply map_nil in E.
  - split; [discriminate|]. intros H. exfalso.
    assert (N : Zod.object_issues localeError accountRecordSchema input = []).
    { unfold Zod.object_issues. apply flat_map_nil. intros f Hf.
      now rewrite (H f Hf). }
    congruence.
Qed.

Lemma string_field_accepts (v : value) :
  Zod.parse_field Zod.string_schema v = [] <-> exists s, v = VString s.
Proof.
  destruct v; simpl; split; try discriminate; eauto.
  - intros [s H]. discriminate.
  - intros [s0 H]. discriminate.
Qed.

Lemma number_field_accepts (v : value) :
  Zod.parse_field (Zod.number_schema true []) v = []
  <-> isFinite (Number v) = true.
Proof.
  cbn [Zod.parse_field Zod.run_checks].
  destruct (Number v); simpl; split; congruence.
Qed.

Lemma reference_field_accepts (v : value) :
  Zod.parse_field (Zod.number_schema true [Zod.int; Zod.nonnegative]) v = []
  <-> isSafeInteger (Number v) = true
      /\ ge (Number v) (S754_zero false) = true.
Proof.
  cbn [Zod.parse_field Zod.run_checks Zod.aborted existsb app].
  set (x := Number v).
  assert (F : isInteger x = true -> (negb (isNaN x) && isFinite x)%bool = true).
  { destruct x; simpl; congruence. }
  unfold isSafeInteger. unfold Zod.int.
  destruct (isInteger x) eqn:I.
  - rewrite (F eq_refl). cbn [negb].
    fold (isSafeInteger x).
    assert (S : isSafeInteger x
                = (true && (MIN_SAFE_INTEGER <=? to_Z x)%Z
                   && (to_Z x <=? MAX_SAFE_INTEGER)%Z)%bool).
    { unfold isSafeInteger. now rewrite I. }
    rewrite <- S. destruct (isSafeInteger x); cbn [negb].
    + cbn. unfold Zod.nonnegative.
      destruct (ge x (S754_zero false)); split; try tauto; try discriminate.
      intros [_ H]. discriminate.
    + split; [|intros [H _]; discriminate].
      destruct (gt x (S754_zero false)); cbn; unfold Zod.nonnegative;
        destruct (ge x (S754_zero false)); discriminate.
  - split; [|intros [H _]; discriminate].
    destruct (negb (isNaN x) && isFinite x)%bool; [|discriminate].
    cbn. discriminate.
Qed.

Lemma safeParse_accepts (input : object) :
  Zod.success (Zod.safeParse localeError accountRecordSchema input) = true
  <-> (isSafeInteger (Number (get input "reference")) = true
       /\ ge (Number (get input "reference")) (S754_zero false) = true)
      /\ (exists s, get input "accountNumber" = VString s)
      /\ isFinite (Number (get input "startBalance")) = true
      /\ isFinite (Number (get input "mutation")) = true
      /\ isFinite (Number (get input "endBalance")) = true
      /\ (exists s, get input "description" = VString s).
Proof.
  rewrite safeParse_success.
  rewrite <- reference_field_accepts, <- !string_field_accepts,
    <- !number_field_accepts.
  split.
  - intros H. repeat split;
      match goal with
      | |- Zod.parse_field ?sc (get input ?k) = [] =>
          apply (H (k, sc)); simpl; tauto
      end.
  - intros [H1 [H2 [H3 [H4 [H5 H6]]]]] f Hf. simpl in Hf.
    destruct Hf as [<- | [<- | [<- | [<- | [<- | [<- | []]]]]]]; assumption.
Qed.

(** X1: [accountRecordSchema] accepts an object exactly when its
    [reference] coerces to a safe integer that is not negative, its
    three balances coerce to finite numbers, and [accountNumber] and
    [description] are strings: a missing field is rejected. *)
Theorem accountRecordSchema_accepts (input : object) :
  Zod.success (Zod.safeParse localeError accountRecordSchema input) = true
  <-> (isSafeInteger (Number (get input "reference")) = true
       /\ ge (Number (get input "reference")) (S754_zero false) = true)
      /\ (exists s, get input "accountNumber" = VString s)
      /\ isFinite (Number (get input "startBalance")) = true
      /\ isFinite (Number (get input "mutation")) = true
      /\ isFinite (Number (get input "endBalance")) = true
      /\ (exists s, get input "description" = VString s).
Proof. apply safeParse_accepts. Qed.

Lemma valid_balances_finite (record : object) :
  structurally_valid record = true ->
  isNaN (Number (get (sanitizeKeys record) "startBalance")) = false
  /\ isNaN (Number (get (sanitizeKeys record) "mutation")) = false
  /\ isNaN (Number (get (sanitizeKeys record) "endBalance")) = false.
Proof.
  unfold structurally_valid. rewrite safeParse_accepts.
  intros [_ [_ [H1 [H2 [H3 _]]]]].
  repeat split;
    match goal with
    | H : isFinite ?x = true |- isNaN ?x = false =>
        destruct x; simpl in *; congruence
    end.
Qed.

Lemma valid_balance_error (record : object) (e : string) :
  structurally_valid record = true ->
  validateEndBalance (sanitizeKeys record) = Some e ->
  String.prefix "Mismatching end balance: Expected: " e = true.
Proof.
  intros V H. destruct (valid_balances_finite record V) as [N1 [N2 N3]].
  unfold validateEndBalance in H. rewrite N1, N2, N3 in H. simpl in H.
  destruct (negb _); [|discriminate].
  injection H as <-.
  apply (prefix_append "Mismatching end balance: Expected: ").
Qed.

Lemma consistency_report_length (type : string) (records earlier : list object) :
  (List.length (consistency_report type earlier records)
   <= List.length records)%nat.
Proof.
  revert earlier. induction records as [|r rest IH]; intros earlier;
    cbn [consistency_report]; [simpl; lia|].
  rewrite length_app. specialize (IH (earlier ++ [r])).
  destruct (consistency_errors earlier r); simpl; lia.
Qed.

Lemma consistency_report_nil (type : string) (records earlier : list object) :
  consistency_report type earlier records = []
  <-> forall before r after,
        records = before ++ r :: after ->
        consistency_errors (earlier ++ before) r = [].
Proof.
  split.
  - intros E before r after R.
    destruct (consistency_errors (earlier ++ before) r) eqn:C;
      [reflexivity|].
    exfalso.
    assert (N : consistency_errors (earlier ++ before) r <> [])
      by (rewrite C; discriminate).
    pose proof (consistency_report_complete type records earlier before r
                  after R N) as H.
    rewrite E in H. contradiction.
  - intros H.
    destruct (consistency_report type earlier records) as [|e l] eqn:E;
      [reflexivity|].
    exfalso.
    assert (I : In e (consistency_report type earlier records))
      by (rewrite E; now left).
    apply consistency_report_entries in I.
    destruct I as [before [r [after [R [N _]]]]]. apply N. now apply (H _ _ after).
Qed.

Lemma consistency_errors_nil (earlier : list object) (r : object) :
  consistency_errors earlier r = []
  <-> seen_before earlier r = false
      /\ validateEndBalance (sanitizeKeys r) = None.
Proof.
  unfold consistency_errors.
  destruct (seen_before earlier r);
    destruct (validateEndBalance (sanitizeKeys r)); simpl; split;
    try discriminate; try tauto; intros [H1 H2]; discriminate.
Qed.

(** X2: the report of [processFile] is empty exactly when every record
    passes the structural validation, no record repeats the reference of
    an earlier one, and the balance of every record matches. *)
Theorem empty_report_iff_file_valid (records : list object) (type : string) :
  processFile records type = []
  <-> (forall r, In r records -> structurally_valid r = true)
      /\ (forall earlier r later,
            records = earlier ++ r :: later ->
            seen_before earlier r = false
            /\ validateEndBalance (sanitizeKeys r) = None).
Proof.
  rewrite processFile_cases. split.
  - intros E.
    destruct (filter (fun r => negb (structurally_valid r)) records) eqn:F;
      [|discriminate].
    split.
    + intros r Hr. rewrite filter_nil_iff in F. specialize (F r Hr).
      now destruct (structurally_valid r).
    + intros earlier r later R. apply consistency_errors_nil.
      rewrite consistency_report_nil in E. now apply (E earlier r later).
  - intros [V C].
    assert (F : filter (fun r => negb (structurally_valid r)) records = []).
    { apply filter_nil_iff. intros x Hx. now rewrite (V x Hx). }
    rewrite F. apply consistency_report_nil.
    intros before r after R. apply consistency_errors_nil.
    now apply (C before r after).
Qed.

Lemma consistency_entry_message (earlier : list object) (r : object) :
  structurally_valid r = true ->
  consistency_errors earlier r <> [] ->
  let msg := join errors_separator (consistency_errors earlier r) in
  msg = "Duplicate record"%string
  \/ (exists b, msg = ("Duplicate record" ++ errors_separator ++ b)%string
                /\ String.prefix "Mismatching end balance: Expected: " b = true)
  \/ String.prefix "Mismatching end balance: Expected: " msg = true.
Proof.
  intros V N. unfold consistency_errors in *.
  destruct (seen_before earlier r);
    destruct (validateEndBalance (sanitizeKeys r)) as [b|] eqn:B;
    cbn [app join] in *.
  - right. left. exists b. split; [reflexivity|].
    now apply (valid_balance_error r).
  - now left.
  - right. right. now apply (valid_balance_error r).
  - congruence.
Qed.

(** X3: every error record of a report has a field [errors] that holds
    a string of one of four shapes: the entries ["Field - ..."] of a
    structural failure, ["Duplicate record"], a message
    ["Mismatching end balance: ..."], or the two joined by [" &\n"].
    The message ["Invalid number format for balance or mutation."] of
    [validateEndBalance] is never part of a report, and the report has
    at most one entry per record. *)
Theorem report_entries_carry_messages (records : list object) (type : string) :
  (List.length (processFile records type) <= List.length records)%nat
  /\ Forall
       (fun e =>
          In "errors"%string (keys e)
          /\ exists msg,
               get e "errors" = VString msg
               /\ (String.prefix "Field - " msg = true
                   \/ msg = "Duplicate record"%string
                   \/ (exists b,
                         msg = ("Duplicate record" ++ errors_separator ++ b)%string
                         /\ String.prefix "Mismatching end balance: Expected: " b
                            = true)
                   \/ String.prefix "Mismatching end balance: Expected: " msg
                      = true))
       (processFile records type).
Proof.
  rewrite processFile_cases.
  destruct (filter (fun r => negb (structurally_valid r)) records) eqn:F.
  - split; [apply consistency_report_length|].
    apply Forall_forall. intros e He.
    apply consistency_report_entries in He.
    destruct He as [before [r [after [R [N ->]]]]]. cbn [app] in *.
    split.
    { unfold errorRecord. apply keys_define. now left. }
    exists (join errors_separator (consistency_errors before r)).
    split; [apply get_errorRecord|]. right.
    apply consistency_entry_message; [|assumption].
    rewrite filter_nil_iff in F.
    assert (I : In r records) by (rewrite R; apply in_or_app; right; now left).
    specialize (F r I). now destruct (structurally_valid r).
  - rewrite <- F. split.
    + rewrite length_map. apply filter_length_le.
    + apply Forall_forall. intros e He. apply in_map_iff in He.
      destruct He as [r [<- Hr]]. apply filter_In in Hr.
      destruct Hr as [_ Vr]. apply negb_true_iff in Vr.
      split.
      { unfold structural_error_record, errorRecord. apply keys_define.
        now left. }
      exists (formatZodErrors {| Zod.issues := structural_issues r |}).
      split; [apply get_errorRecord|]. left.
      unfold structurally_valid, Zod.safeParse in Vr.
      fold (structural_issues r) in Vr.
      destruct (structural_issues r) as [|i issues]; [discriminate|].
      apply formatZodErrors_prefix.
Qed.

Lemma get_errorRecord_other (o : object) (errors k : string) :
  well_formed o -> k <> "errors"%string ->
  get (errorRecord o errors) k = get o k.
Proof.
  intros W N. unfold errorRecord. rewrite (spread_well_formed o W).
  now apply get_define_other.
Qed.

(** ** [reorderRecordForXml] *)

Lemma get_without (k k' : string) (o : object) :
  k' <> k -> get (without k o) k' = get o k'.
Proof.
  intros N. induction o as [|[k0 v0] r IH]; simpl; [reflexivity|].
  destruct (String.eqb k k0) eqn:E; simpl.
  - apply String.eqb_eq in E. subst k0.
    apply String.eqb_neq in N. now rewrite N.
  - now rewrite IH.
Qed.

Lemma get_missing (k : string) (o : object) :
  has_key k o = false -> get o k = VUndefined.
Proof.
  induction o as [|[k0 v0] r IH]; simpl; [reflexivity|].
  destruct (String.eqb k k0); simpl; [discriminate | exact IH].
Qed.

Lemma keys_without (k k' : string) (o : object) :
  In k' (keys (without k o)) <-> k' <> k /\ In k' (keys o).
Proof.
  unfold keys, without. rewrite !in_map_iff. split.
  - intros [p [<- Hp]]. apply filter_In in Hp. destruct Hp as [Hp N].
    apply negb_true_iff, String.eqb_neq in N. split; [congruence|].
    now exists p.
  - intros [N [p [<- Hp]]]. exists p. split; [reflexivity|].
    apply filter_In. split; [assumption|].
    apply negb_true_iff, String.eqb_neq. congruence.
Qed.

Lemma has_key_without (k k' : string) (o : object) :
  k' <> k -> has_key k' (without k o) = has_key k' o.
Proof.
  intros N. destruct (has_key k' o) eqn:E.
  - apply has_key_In. apply keys_without. split; [assumption|].
    now apply has_key_In.
  - apply has_key_false. intros H. apply keys_without in H.
    apply has_key_false in E. tauto.
Qed.

Lemma NoDup_map_filter {A B : Type} (f : A -> B) (g : A -> bool) (l : list A) :
  NoDup (map f l) -> NoDup (map f (filter g l)).
Proof.
  induction l as [|a l IH]; simpl; intros N; [constructor|].
  inversion N as [|? ? N1 N2]; subst.
  destruct (g a); simpl; [|now apply IH].
  constructor; [|now apply IH].
  intros H. apply N1. apply in_map_iff in H. destruct H as [x [E Hx]].
  apply filter_In in Hx. apply in_map_iff. exists x. tauto.
Qed.

Lemma ordered_filter (g : string * value -> bool) (o : object) :
  ordered o -> ordered (filter g o).
Proof.
  induction o as [|p r IH]; simpl; [tauto|].
  intros [F O]. destruct (g p); simpl; [|now apply IH].
  split; [|now apply IH].
  rewrite Forall_forall in *. intros q Hq. apply F.
  now apply filter_In in Hq.
Qed.

Lemma well_formed_without (k : string) (o : object) :
  well_formed o -> well_formed (without k o).
Proof.
  intros [N O]. split.
  - now apply NoDup_map_filter.
  - now apply ordered_filter.
Qed.

Lemma get_spread (src acc : object) (k : string) :
  NoDup (keys src) ->
  get (spread src acc) k = if has_key k src then get src k else get acc k.
Proof.
  unfold spread. revert acc.
  induction src as [|[k0 v0] r IH]; intros acc N; [reflexivity|].
  inversion N as [|? ? N1 N2]; subst.
  cbn [fold_left fst snd]. rewrite (IH _ N2). cbn [has_key existsb get fst].
  fold (has_key k r).
  destruct (String.eqb k k0) eqn:E; simpl.
  - apply String.eqb_eq in E. subst k0.
    apply has_key_false in N1. rewrite N1. apply get_define.
  - destruct (has_key k r); [reflexivity|].
    apply get_define_other. now apply String.eqb_neq.
Qed.

Lemma reorderRecordForXml_rest (record : object) :
  well_formed record ->
  reorderRecordForXml record
  = spread (without "reference" record)
      [("reference"%string, get record "reference")].
Proof.
  intros W. unfold reorderRecordForXml.
  now rewrite (spread_well_formed _ (well_formed_without "reference" _ W)).
Qed.

Lemma reorderRecordForXml_get (record : object) (k : string) :
  well_formed record -> get (reorderRecordForXml record) k = get record k.
Proof.
  intros W. rewrite (reorderRecordForXml_rest record W).
  pose proof (well_formed_without "reference" record W) as [N _].
  rewrite (get_spread _ _ _ N).
  destruct (String.eqb_spec k "reference") as [-> | D].
  - replace (has_key "reference" (without "reference" record)) with false.
    + reflexivity.
    + symmetry. apply has_key_false. intros H.
      apply keys_without in H. tauto.
  - rewrite (has_key_without _ _ _ D), (get_without _ _ _ D).
    destruct (has_key k record) eqn:H; [reflexivity|].
    rewrite (get_missing _ _ H). simpl.
    apply String.eqb_neq in D. now rewrite D.
Qed.

Lemma spread_fresh_perm (src acc : object) :
  NoDup (keys acc ++ keys src) -> Permutation (spread src acc) (acc ++ src).
Proof.
  unfold spread. revert acc.
  induction src as [|[k v] r IH]; simpl; intros acc N.
  - now rewrite app_nil_r.
  - assert (F : has_key k acc = false).
    { apply has_key_false. apply NoDup_remove_2 in N.
      intros H. apply N. apply in_or_app. now left. }
    pose proof (define_fresh_perm k v acc F) as D.
    rewrite IH.
    + rewrite D. simpl. apply Permutation_middle.
    + apply (Permutation_NoDup (l := keys acc ++ k :: keys r)); [|exact N].
      rewrite <- Permutation_middle.
      change (k :: keys acc ++ keys r) with ((k :: keys acc) ++ keys r).
      apply Permutation_app_tail. symmetry.
      change (k :: keys acc) with (keys ((k, v) :: acc)).
      now apply Permutation_map.
Qed.

Lemma without_fresh (k : string) (o : object) :
  has_key k o = false -> without k o = o.
Proof.
  induction o as [|[k0 v0] r IH]; simpl; [reflexivity|].
  destruct (String.eqb k k0); simpl; [discriminate|].
  intros H. now rewrite IH.
Qed.

Lemma without_perm (k : string) (o : object) :
  NoDup (keys o) -> has_key k o = true ->
  Permutation ((k, get o k) :: without k o) o.
Proof.
  induction o as [|[k0 v0] r IH]; simpl; [discriminate|].
  intros N H. inversion N as [|? ? N1 N2]; subst.
  destruct (String.eqb k k0) eqn:E; simpl.
  - apply String.eqb_eq in E. subst k0.
    rewrite without_fresh; [reflexivity | now apply has_key_false].
  - rewrite perm_swap. apply perm_skip. now apply IH.
Qed.

(** X4: on an object with distinct keys [reorderRecordForXml] only
    moves fields: every field reads as before, and the result holds the
    same entries as the record, with [reference: undefined] added when
    the record has no [reference]. *)
Theorem reorderRecordForXml_keeps_fields (record : object) :
  well_formed record ->
  (forall k, get (reorderRecordForXml record) k = get record k)
  /\ Permutation (reorderRecordForXml record)
       (if has_key "reference" record then record
        else ("reference"%string, VUndefined) :: record).
Proof.
  intros W. split; [intros k; now apply reorderRecordForXml_get|].
  rewrite (reorderRecordForXml_rest record W).
  destruct W as [N O].
  rewrite spread_fresh_perm.
  - destruct (has_key "reference" record) eqn:H.
    + now apply without_perm.
    + simpl. rewrite (get_missing _ _ H), (without_fresh _ _ H). reflexivity.
  - simpl. constructor.
    + intros H. apply keys_without in H. tauto.
    + now apply NoDup_map_filter.
Qed.

Lemma without_update (k k' : string) (v : value) (o : object) :
  k' <> k -> without k (update k' v o) = update k' v (without k o).
Proof.
  intros D. induction o as [|[k0 v0] r IH]; simpl; [reflexivity|].
  destruct (String.eqb k' k0) eqn:E; simpl.
  - apply String.eqb_eq in E. subst k0.
    assert (F : String.eqb k k' = false)
      by (apply String.eqb_neq; congruence).
    rewrite F. simpl. now rewrite String.eqb_refl.
  - destruct (String.eqb k k0); simpl; [exact IH|].
    now rewrite E, IH.
Qed.

Lemma ordered_after_name (k : string) (v : value) (rest : object) :
  array_index k = None -> ordered ((k, v) :: rest) ->
  forall i k' v', insert_index i k' v' rest = (k', v') :: rest.
Proof.
  intros Hk [F _] i k' v'. destruct rest as [|[k0 v0] r]; [reflexivity|].
  simpl. inversion F as [|? ? B _]; subst. simpl in B.
  unfold key_before in B. rewrite Hk in B.
  destruct (array_index k0); [contradiction | reflexivity].
Qed.

Lemma without_cons (k k0 : string) (v0 : value) (r : object) :
  without k ((k0, v0) :: r)
  = if String.eqb k k0 then without k r else (k0, v0) :: without k r.
Proof. unfold without. cbn [filter fst]. now destruct (String.eqb k k0). Qed.

Lemma without_insert_index (i : Z) (k : string) (v : value) (o : object) :
  k <> "reference"%string -> well_formed o -> reference_leads (keys o) ->
  without "reference" (insert_index i k v o)
  = insert_index i k v (without "reference" o).
Proof.
  intros D W [idx [rest [E F]]].
  assert (Dk : String.eqb "reference" k = false)
    by (apply String.eqb_neq; congruence).
  revert o W E. induction idx as [|a idx IH]; intros o W E.
  - destruct o as [|[k0 v0] r]; [discriminate|].
    cbn [keys map fst app] in E. injection E as -> E.
    cbn [insert_index]. change (array_index "reference") with (@None Z).
    cbv iota. rewrite !without_cons, Dk, String.eqb_refl.
    destruct W as [N O]. inversion N as [|? ? N1 N2]; subst.
    rewrite (without_fresh "reference" r) by now apply has_key_false.
    now rewrite (ordered_after_name "reference" v0 r eq_refl O).
  - destruct o as [|[k0 v0] r]; [discriminate|].
    cbn [keys map fst app] in E. injection E as -> E.
    inversion F as [|? ? Fa Fi]; subst.
    assert (Da : String.eqb "reference" a = false).
    { apply String.eqb_neq. intros <-. now apply Fa. }
    assert (W' : well_formed r).
    { destruct W as [N [_ O]]. inversion N; subst. now split. }
    rewrite without_cons, Da. cbn [insert_index].
    destruct (array_index a) as [j|]; [|congruence].
    destruct (i <? j)%Z.
    + now rewrite !without_cons, Dk, Da.
    + rewrite without_cons, Da. now rewrite (IH Fi r W' E).
Qed.

Lemma without_define (k : string) (v : value) (o : object) :
  k <> "reference"%string -> well_formed o -> reference_leads (keys o) ->
  without "reference" (define k v o) = define k v (without "reference" o).
Proof.
  intros D W R. unfold define. rewrite (has_key_without _ _ _ D).
  destruct (has_key k o).
  - now apply without_update.
  - destruct (array_index k) as [i|].
    + now apply without_insert_index.
    + assert (Dk : String.eqb "reference" k = false)
        by (apply String.eqb_neq; congruence).
      unfold without. rewrite filter_app. cbn [filter fst].
      now rewrite Dk.
Qed.

Lemma without_spread (src acc : object) :
  ~ In "reference"%string (keys src) ->
  well_formed acc -> reference_leads (keys acc) ->
  without "reference" (spread src acc)
  = spread src (without "reference" acc).
Proof.
  unfold spread. revert acc.
  induction src as [|[k v] r IH]; intros acc N W R; [reflexivity|].
  cbn [fold_left fst snd].
  assert (D : k <> "reference"%string) by (intros ->; apply N; now left).
  rewrite IH.
  - now rewrite without_define.
  - intros H. apply N. now right.
  - now apply define_well_formed.
  - now apply define_reference_leads.
Qed.

Lemma reorderRecordForXml_without (record : object) :
  well_formed record ->
  without "reference" (reorderRecordForXml record)
  = without "reference" record.
Proof.
  intros W. rewrite (reorderRecordForXml_rest record W).
  rewrite without_spread.
  - simpl. apply spread_well_formed. now apply well_formed_without.
  - intros H. apply keys_without in H. tauto.
  - split; [repeat constructor; simpl; tauto | simpl; repeat constructor].
  - exists [], []. split; [reflexivity | constructor].
Qed.

(** X5: on an object with distinct keys, [reorderRecordForXml] leaves
    the fields other than [reference] in the order they had, and
    reordering a second time changes nothing. *)
Theorem reorderRecordForXml_order_and_idempotence (record : object) :
  well_formed record ->
  without "reference" (reorderRecordForXml record)
  = without "reference" record
  /\ reorderRecordForXml (reorderRecordForXml record)
     = reorderRecordForXml record.
Proof.
  intros W. split; [now apply reorderRecordForXml_without|].
  rewrite (reorderRecordForXml_rest _ (reorderRecordForXml_well_formed record)).
  rewrite (reorderRecordForXml_without record W).
  rewrite (reorderRecordForXml_get record _ W).
  symmetry. now apply reorderRecordForXml_rest.
Qed.

(** X6: an error record holds the fields of its record as
    [sanitizeKeys] leaves them, whatever the type of the file: every
    field other than [errors] reads as in the sanitized record, so a
    value is reported as it was given, not as the schema coerces it. *)
Theorem error_record_keeps_values (records : list object) (type : string)
  (e : object) :
  In e (processFile records type) ->
  exists r,
    In r records
    /\ forall k, k <> "errors"%string -> get e k = get (sanitizeKeys r) k.
Proof.
  intros He. apply processFile_entries in He.
  destruct He as [r [msg [Hr ->]]]. exists r. split; [assumption|].
  intros k D. unfold arrange. destruct (String.eqb type "xml").
  - rewrite get_errorRecord_other;
      [|apply reorderRecordForXml_well_formed | assumption].
    apply reorderRecordForXml_get, sanitizeKeys_well_formed.
  - apply get_errorRecord_other; [apply sanitizeKeys_well_formed | assumption].
Qed.

Lemma consistency_report_messages (type : string)
  (records earlier : list object) :
  map (fun e => get e "errors") (consistency_report type earlier records)
  = map (fun e => get e "errors") (consistency_report "csv" earlier records).
Proof.
  revert earlier. induction records as [|r rest IH]; intros earlier;
    cbn [consistency_report]; [reflexivity|].
  rewrite !map_app, IH.
  destruct (consistency_errors earlier r); [reflexivity|].
  cbn [map]. now rewrite !get_errorRecord.
Qed.

Lemma arrange_not_xml (type : string) (sanitizedRecord : object) :
  type <> "xml"%string -> arrange type sanitizedRecord = sanitizedRecord.
Proof.
  intros N. unfold arrange. apply String.eqb_neq in N. now rewrite N.
Qed.

Lemma consistency_report_not_xml (type : string)
  (records earlier : list object) :
  type <> "xml"%string ->
  consistency_report type earlier records
  = consistency_report "csv" earlier records.
Proof.
  intros N. revert earlier. induction records as [|r rest IH];
    intros earlier; cbn [consistency_report]; [reflexivity|].
  rewrite IH, (arrange_not_xml type _ N).
  now rewrite (arrange_not_xml "csv") by discriminate.
Qed.

Lemma processFile_not_xml (records : list object) (type : string) :
  type <> "xml"%string -> processFile records type = processFile records "csv".
Proof.
  intros N. rewrite !processFile_cases.
  destruct (filter (fun r => negb (structurally_valid r)) records).
  - now apply consistency_report_not_xml.
  - apply map_ext. intros r. unfold structural_error_record.
    rewrite (arrange_not_xml type _ N).
    now rewrite (arrange_not_xml "csv") by discriminate.
Qed.

Lemma reorderRecordForXml_permutation (record : object) :
  well_formed record ->
  Permutation (reorderRecordForXml record)
    (if has_key "reference" record then record
     else ("reference"%string, VUndefined) :: record).
Proof.
  intros W. rewrite (reorderRecordForXml_rest record W).
  destruct W as [N O].
  rewrite spread_fresh_perm.
  - destruct (has_key "reference" record) eqn:H.
    + now apply without_perm.
    + simpl. rewrite (get_missing _ _ H), (without_fresh _ _ H). reflexivity.
  - simpl. constructor.
    + intros H. apply keys_without in H. tauto.
    + now apply NoDup_map_filter.
Qed.

Lemma reorderRecordForXml_keys (record : object) :
  well_formed record ->
  Permutation (keys (reorderRecordForXml record))
    (if has_key "reference" record then keys record
     else "reference"%string :: keys record).
Proof.
  intros W. pose proof (reorderRecordForXml_permutation record W) as P.
  apply (Permutation_map fst) in P. unfold keys.
  now destruct (has_key "reference" record).
Qed.

Lemma has_key_reorderRecordForXml (record : object) (k : string) :
  well_formed record -> k <> "reference"%string ->
  has_key k (reorderRecordForXml record) = has_key k record.
Proof.
  intros W N. pose proof (reorderRecordForXml_keys record W) as P.
  destruct (has_key k record) eqn:H.
  - apply has_key_In. apply has_key_In in H.
    apply (Permutation_in k (Permutation_sym P)).
    destruct (has_key "reference" record); [assumption | now right].
  - apply has_key_false. apply has_key_false in H. intros I.
    apply (Permutation_in k P) in I.
    destruct (has_key "reference" record); [tauto|].
    destruct I as [I | I]; [congruence | tauto].
Qed.

Lemma errorRecord_same_fields (sanitizedRecord : object) (errors : string) :
  well_formed sanitizedRecord ->
  same_fields (errorRecord (reorderRecordForXml sanitizedRecord) errors)
    (errorRecord sanitizedRecord errors).
Proof.
  intros W. pose proof (reorderRecordForXml_well_formed sanitizedRecord) as WX.
  split.
  - intros k. destruct (String.eqb_spec k "errors") as [-> | N].
    + now rewrite !get_errorRecord.
    + rewrite !get_errorRecord_other by assumption.
      now apply reorderRecordForXml_get.
  - rewrite (keys_errorRecord _ errors WX), (keys_errorRecord _ errors W).
    rewrite (has_key_reorderRecordForXml _ "errors" W) by discriminate.
    assert (R : has_key "reference" (errorRecord sanitizedRecord errors)
                = has_key "reference" sanitizedRecord).
    { destruct (has_key "reference" sanitizedRecord) eqn:H.
      - apply has_key_In. rewrite (keys_errorRecord _ errors W).
        apply in_or_app. left. now apply has_key_In.
      - apply has_key_false. rewrite (keys_errorRecord _ errors W).
        apply has_key_false in H. intros I. apply in_app_or in I.
        destruct I as [I | I]; [tauto|].
        destruct (has_key "errors" sanitizedRecord); [contradiction|].
        destruct I as [I | []]. discriminate. }
    rewrite R. pose proof (reorderRecordForXml_keys sanitizedRecord W) as P.
    destruct (has_key "reference" sanitizedRecord).
    + now apply Permutation_app_tail.
    + apply (Permutation_app_tail
               (if has_key "errors" sanitizedRecord then []
                else ["errors"%string])) in P.
      exact P.
Qed.

Lemma consistency_report_same_fields (records earlier : list object) :
  Forall2 same_fields (consistency_report "xml" earlier records)
    (consistency_report "csv" earlier records).
Proof.
  revert earlier. induction records as [|r rest IH]; intros earlier;
    cbn [consistency_report]; [constructor|].
  apply Forall2_app; [|apply IH].
  destruct (consistency_errors earlier r); [constructor|].
  constructor; [|constructor].
  apply errorRecord_same_fields, sanitizeKeys_well_formed.
Qed.

Lemma processFile_same_fields (records : list object) :
  Forall2 same_fields (processFile records "xml") (processFile records "csv").
Proof.
  rewrite !processFile_cases.
  destruct (filter (fun r => negb (structurally_valid r)) records) as [|i l].
  - apply consistency_report_same_fields.
  - generalize (i :: l). intros invalid.
    induction invalid as [|r rest IH]; cbn [map]; constructor; [|exact IH].
    apply errorRecord_same_fields, sanitizeKeys_well_formed.
Qed.

(** X7: the type of the file decides the layout of the error records
    and nothing else.  For the same records any two types give reports
    of the same length with the same error messages in the same order;
    every type other than [xml] gives the same report; and the report
    of [xml], entry by entry beside the report of another type, reads
    the same value under every field name and has the same fields in
    another order, with one more field, [reference: undefined], when
    the record has no [reference]. *)
Theorem report_messages_independent_of_type
  (records : list object) (type1 type2 : string) :
  map (fun e => get e "errors") (processFile records type1)
  = map (fun e => get e "errors") (processFile records type2)
  /\ List.length (processFile records type1)
     = List.length (processFile records type2)
  /\ (type1 <> "xml"%string -> type2 <> "xml"%string ->
      processFile records type1 = processFile records type2)
  /\ (type2 <> "xml"%string ->
      Forall2
        (fun x c =>
           (forall k, get x k = get c k)
           /\ Permutation (keys x)
                (if has_key "reference" c then keys c
                 else "reference"%string :: keys c))
        (processFile records "xml") (processFile records type2)).
Proof.
  assert (E : map (fun e => get e "errors") (processFile records type1)
              = map (fun e => get e "errors") (processFile records type2)).
  { rewrite !processFile_cases.
    destruct (filter (fun r => negb (structurally_valid r)) records).
    - rewrite (consistency_report_messages type1).
      now rewrite (consistency_report_messages type2).
    - rewrite !map_map. apply map_ext. intros r.
      unfold structural_error_record. now rewrite !get_errorRecord. }
  split; [exact E|]. split.
  { apply (f_equal (@List.length value)) in E. now rewrite !length_map in E. }
  split.
  - intros N1 N2.
    now rewrite (processFile_not_xml records type1 N1),
      (processFile_not_xml records type2 N2).
  - intros N2. rewrite (processFile_not_xml records type2 N2).
    apply processFile_same_fields.
Qed.

(** ** More on [sanitizeKeys] and [validateEndBalance] *)

Lemma length_update (k : string) (v : value) (o : object) :
  List.length (update k v o) = List.length o.
Proof.
  induction o as [|[k0 v0] r IH]; simpl; [reflexivity|].
  destruct (String.eqb k k0); simpl; [reflexivity | now rewrite IH].
Qed.

Lemma length_assign (k : string) (v : value) (o : object) :
  (List.length (assign k v o) <= S (List.length o))%nat.
Proof.
  unfold assign, define.
  destruct (String.eqb k "__proto__" && negb (has_key k o))%bool; [lia|].
  destruct (has_key k o) eqn:H.
  - rewrite length_update. lia.
  - pose proof (define_fresh_perm k v o H) as P.
    unfold define in P. rewrite H in P.
    apply Permutation_length in P. simpl in P. lia.
Qed.

Lemma sanitizeKeys_length_from (o acc : object) :
  (List.length
     (fold_left (fun a p => assign (sanitizeKey (fst p)) (snd p) a) o acc)
   <= List.length acc + List.length o)%nat.
Proof.
  revert acc. induction o as [|p r IH]; simpl; intros acc; [lia|].
  specialize (IH (assign (sanitizeKey (fst p)) (snd p) acc)).
  pose proof (length_assign (sanitizeKey (fst p)) (snd p) acc). lia.
Qed.

(** X8: the object that [sanitizeKeys] returns has pairwise distinct
    keys, in the order of an object (array indices first), every key
    being a key that sanitizing leaves as it is; it has no more fields
    than the record, and never a field [__proto__]: a field whose name
    sanitizes to [__proto__] is lost. *)
Theorem sanitizeKeys_output (record : object) :
  well_formed (sanitizeKeys record)
  /\ (List.length (sanitizeKeys record) <= List.length record)%nat
  /\ ~ In "__proto__"%string (keys (sanitizeKeys record))
  /\ forall k, In k (keys (sanitizeKeys record)) -> sanitizeKey k = k.
Proof.
  split; [apply sanitizeKeys_well_formed|]. split; [|split].
  - apply (sanitizeKeys_length_from record []).
  - intros H. apply sanitizeKeys_keys in H. tauto.
  - intros k H. apply sanitizeKeys_keys in H.
    destruct H as [[k0 [_ ->]] _]. apply sanitizeKey_idempotent.
Qed.

Lemma add_comm (x y : number) : add x y = add y x.
Proof.
  unfold add. destruct x as [sx|sx| |sx mx ex], y as [sy|sy| |sy my ey];
    try reflexivity.
  - now destruct sx, sy.
  - now destruct sx, sy.
  - cbn [SFadd]. now rewrite Z.min_comm, Z.add_comm.
Qed.

(** X9: [validateEndBalance] treats [startBalance] and [mutation]
    alike: exchanging the two gives the same result. *)
Theorem validateEndBalance_symmetric (record swapped : object) :
  get swapped "startBalance" = get record "mutation" ->
  get swapped "mutation" = get record "startBalance" ->
  get swapped "endBalance" = get record "endBalance" ->
  validateEndBalance swapped = validateEndBalance record.
Proof.
  intros H1 H2 H3. unfold validateEndBalance. rewrite H1, H2, H3.
  rewrite (add_comm (Number (get record "mutation"))).
  now rewrite (orb_comm (isNaN (Number (get record "mutation")))).
Qed.

(** ** [fileSchema] and the uploader *)

Lemma String_split_nonempty (sep : ascii) (s : string) :
  String_split sep s <> [].
Proof.
  destruct s as [|c r]; simpl; [discriminate|].
  destruct (Ascii.eqb c sep); [discriminate|].
  destruct (String_split sep r); discriminate.
Qed.

Lemma Array_pop_cons (p : string) (l : list string) :
  l <> [] -> Array_pop (p :: l) = Array_pop l.
Proof. destruct l; [congruence | reflexivity]. Qed.

Lemma String_split_whole (sep : ascii) (s : string) :
  (forall c, In c (list_ascii_of_string s) -> c <> sep) ->
  String_split sep s = [s].
Proof.
  induction s as [|c r IH]; simpl; intros H; [reflexivity|].
  assert (E : Ascii.eqb c sep = false).
  { apply Ascii.eqb_neq. apply H. now left. }
  rewrite E, IH; [reflexivity|]. intros x Hx. apply H. now right.
Qed.

Lemma Array_pop_split_app (sep : ascii) (a b : string) :
  Array_pop (String_split sep (a ++ String sep b)%string)
  = Array_pop (String_split sep b).
Proof.
  induction a as [|c a IH]; cbn [String.append String_split].
  - rewrite Ascii.eqb_refl.
    apply Array_pop_cons, String_split_nonempty.
  - destruct (Ascii.eqb c sep).
    + rewrite Array_pop_cons; [exact IH | apply String_split_nonempty].
    + destruct (String_split sep (a ++ String sep b)%string) as [|h t] eqn:E.
      * exfalso. now apply (String_split_nonempty sep (a ++ String sep b)%string).
      * destruct t as [|h' t].
        -- exfalso. simpl in IH.
           assert (L : forall x, List.length (String_split sep (x ++ String sep b)%string) >= 2).
           { clear. induction x as [|c x IHx]; cbn [String.append String_split].
             - rewrite Ascii.eqb_refl. simpl.
               pose proof (String_split_nonempty sep b).
               destruct (String_split sep b); [congruence | simpl; lia].
             - destruct (Ascii.eqb c sep); [simpl; lia|].
               destruct (String_split sep (x ++ String sep b)%string)
                 as [|h0 t0]; simpl in *; lia. }
           specialize (L a). rewrite E in L. simpl in L. lia.
        -- exact IH.
Qed.

Lemma toLowerCase_empty (s : string) :
  String.eqb (toLowerCase s) "" = true -> s = EmptyString.
Proof. destruct s; simpl; [reflexivity | discriminate]. Qed.

Lemma valid_extension_nonempty (ext : string) :
  (negb (String.eqb ext "") && existsb (String.eqb ext) validExtensions)%bool
  = existsb (String.eqb ext) validExtensions.
Proof. destruct ext; reflexivity. Qed.

Lemma lower_char_dot (c : ascii) :
  Ascii.eqb (lower_char c) "." = Ascii.eqb c ".".
Proof. destruct c as [[] [] [] [] [] [] [] []]; reflexivity. Qed.

Lemma toLowerCase_idempotent (s : string) :
  toLowerCase (toLowerCase s) = toLowerCase s.
Proof.
  induction s as [|c r IH]; simpl; [reflexivity|].
  now rewrite lower_char_idempotent, IH.
Qed.

Lemma String_split_toLowerCase (s : string) :
  String_split "." (toLowerCase s) = map toLowerCase (String_split "." s).
Proof.
  induction s as [|c r IH]; simpl; [reflexivity|].
  rewrite lower_char_dot, IH.
  destruct (Ascii.eqb c "."); [reflexivity|].
  now destruct (String_split "." r).
Qed.

Lemma Array_pop_map (f : string -> string) (l : list string) :
  Array_pop (map f l) = option_map f (Array_pop l).
Proof.
  induction l as [|p l IH]; [reflexivity|].
  destruct l as [|q l]; [reflexivity|]. exact IH.
Qed.

Lemma fileSchema_refine_extension (base ext : string) :
  (forall c, In c (list_ascii_of_string ext) -> c <> "."%char) ->
  fileSchema_refine (base ++ "." ++ ext)%string
  = existsb (String.eqb (toLowerCase ext)) validExtensions.
Proof.
  intros H. unfold fileSchema_refine.
  change ("." ++ ext)%string with (String "." ext).
  rewrite Array_pop_split_app, (String_split_whole _ _ H).
  cbn [Array_pop]. apply valid_extension_nonempty.
Qed.

(** X10: [fileSchema] accepts a name by what follows its last dot,
    whatever the case of the letters: [base.ext] is accepted exactly
    when [ext], in lower case, is [csv] or [xml]; a name without a dot is
    taken whole, so that the bare name [csv] is accepted; and a name is
    accepted exactly when the name in lower case is. *)
Theorem fileSchema_by_extension :
  (forall base ext,
     (forall c, In c (list_ascii_of_string ext) -> c <> "."%char) ->
     fileSchema_refine (base ++ "." ++ ext)%string
     = existsb (String.eqb (toLowerCase ext)) validExtensions)
  /\ (forall name,
        (forall c, In c (list_ascii_of_string name) -> c <> "."%char) ->
        fileSchema_refine name
        = existsb (String.eqb (toLowerCase name)) validExtensions)
  /\ (forall name, fileSchema_refine (toLowerCase name) = fileSchema_refine name).
Proof.
  split; [|split].
  - apply fileSchema_refine_extension.
  - intros name H. unfold fileSchema_refine.
    rewrite (String_split_whole _ _ H). cbn [Array_pop].
    apply valid_extension_nonempty.
  - intros name. unfold fileSchema_refine.
    rewrite String_split_toLowerCase, Array_pop_map.
    destruct (Array_pop (String_split "." name)); [|reflexivity].
    cbn [option_map]. now rewrite toLowerCase_idempotent.
Qed.

Lemma endsWith_app (s suffix : string) :
  endsWith s suffix = true -> exists pre, s = (pre ++ suffix)%string.
Proof.
  unfold endsWith. intros H. apply andb_true_iff in H. destruct H as [_ H].
  apply String.eqb_eq in H.
  exists (take (String.length s - String.length suffix) s).
  rewrite <- H at 2. symmetry. apply take_drop.
Qed.

Lemma endsWith_accepted (file : string) :
  endsWith file ".csv" = true \/ endsWith file ".xml" = true ->
  fileSchema_refine file = true.
Proof.
  intros [H | H]; apply endsWith_app in H; destruct H as [pre ->].
  - apply (fileSchema_refine_extension pre "csv").
    intros c Hc. simpl in Hc.
    destruct Hc as [<- | [<- | [<- | []]]]; discriminate.
  - apply (fileSchema_refine_extension pre "xml").
    intros c Hc. simpl in Hc.
    destruct Hc as [<- | [<- | [<- | []]]]; discriminate.
Qed.

Lemma onDrop_accepted (file : string) (others : list string) (st : uploader) :
  fileSchema_refine file = true ->
  onDrop (file :: others) st
  = ({| errorRecords := None; uploadStatus := ""; errorMessage := "";
        isProcessing := true; uploadedFileName := Some file |},
     Some file).
Proof.
  intros A. unfold onDrop, fileSchema_parse. now rewrite A.
Qed.

(** X11: for a file whose name ends with [.csv] or [.xml], [onDrop]
    starts the reader, and once the text is loaded the component shows
    the name of the file with the report of [parseCsv] or [parseXml] on
    the text: the table of its error records, or the notice that there
    are none; when the parse throws it shows the parsing error and no
    report. *)
Theorem upload_parses_by_suffix (file content : string) (st : uploader) :
  endsWith file ".csv" = true \/ endsWith file ".xml" = true ->
  exists st1,
    onDrop [file] st = (st1, Some file)
    /\ render (reader_onload file content st1)
       = match (if endsWith file ".csv" then Some (parseCsv content)
                else parseXml content) with
         | Some [] => [UploadedFile file; NoErrorRecords]
         | Some errors => [UploadedFile file; Table errors]
         | None =>
             [ErrorText ("An error occurred during file parsing: "
                           ++ parseError_text content);
              UploadedFile file]
         end.
Proof.
  intros H. eexists. split; [apply onDrop_accepted, endsWith_accepted, H|].
  assert (N : String.eqb file "" = false).
  { destruct file; [destruct H; discriminate | reflexivity]. }
  unfold reader_onload, render.
  destruct (endsWith file ".csv") eqn:C.
  - cbn. rewrite N. cbn. now destruct (parseCsv content).
  - destruct H as [H | H]; [discriminate|]. rewrite H.
    destruct (parseXml content) as [errors|]; cbn; rewrite N; cbn;
      [now destruct errors | reflexivity].
Qed.

(** X12: a name that [fileSchema] accepts but that ends neither with
    [.csv] nor with [.xml] in lower case (as [DATA.CSV], or the bare
    name [csv]) reaches no parser: whatever the text of the file, the
    component shows its name and the notice that there are no error
    records. *)
Theorem accepted_file_without_parser (file : string) (st : uploader) :
  fileSchema_refine file = true ->
  endsWith file ".csv" = false -> endsWith file ".xml" = false ->
  exists st1,
    onDrop [file] st = (st1, Some file)
    /\ forall content,
         errorRecords (reader_onload file content st1) = Some []
         /\ render (reader_onload file content st1)
            = [UploadedFile file; NoErrorRecords].
Proof.
  intros A C X. eexists. split; [now apply onDrop_accepted|].
  intros content.
  assert (N : String.eqb file "" = false).
  { destruct file; [discriminate | reflexivity]. }
  unfold reader_onload, render. rewrite C, X. cbn. rewrite N. now cbn.
Qed.

(** X13: a drop erases what an earlier upload left: the state after
    [onDrop] does not depend on the state before.  When [fileSchema]
    rejects the name of the first file no reader is started, and the
    component shows the message of the schema and no report. *)
Theorem onDrop_resets_and_rejects :
  (forall files st st', onDrop files st = onDrop files st')
  /\ (forall file others st,
        fileSchema_refine file = false ->
        snd (onDrop (file :: others) st) = None
        /\ errorRecords (fst (onDrop (file :: others) st)) = None
        /\ render (fst (onDrop (file :: others) st))
           = ErrorText fileSchema_message
               :: (if String.eqb file "" then [] else [UploadedFile file])).
Proof.
  split.
  - intros files st st'. unfold onDrop.
    destruct files as [|file others]; [reflexivity|].
    now destruct (fileSchema_parse file).
  - intros file others st R. unfold onDrop, fileSchema_parse. rewrite R.
    cbn. repeat split. now destruct (String.eqb file "").
Qed.

(** ** The component over a sequence of events *)

Lemma take_reader_In (file : string) (readers rest : list string) :
  take_reader file readers = Some rest ->
  forall f, In f rest -> In f readers.
Proof.
  revert rest. induction readers as [|r readers IH]; intros rest; simpl.
  - discriminate.
  - destruct (String.eqb r file).
    + intros E f Hf. injection E as <-. now right.
    + destruct (take_reader file readers) as [rest'|]; [|discriminate].
      simpl. intros E f Hf. injection E as <-.
      destruct Hf as [<- | Hf]; [now left | right; now apply (IH rest')].
Qed.

Lemma render_without_status (st : uploader) :
  uploadStatus st = "" -> forall text, ~ In (Status text) (render st).
Proof.
  intros U text. unfold render. rewrite U. cbn [String.eqb negb].
  rewrite !in_app_iff.
  destruct (isProcessing st), (errorRecords st) as [[|r l]|],
    (negb (String.eqb (errorMessage st) "")),
    (uploadedFileName st) as [name|];
    try destruct (negb (String.eqb name "")); cbn;
    intuition discriminate.
Qed.

Lemma render_processing (st : uploader) :
  In Processing (render st) -> isProcessing st = true.
Proof.
  unfold render. rewrite !in_app_iff.
  destruct (isProcessing st); [reflexivity|].
  destruct (errorRecords st) as [[|r l]|],
    (negb (String.eqb (uploadStatus st) "")),
    (negb (String.eqb (errorMessage st) "")),
    (uploadedFileName st) as [name|];
    try destruct (negb (String.eqb name "")); cbn;
    intuition discriminate.
Qed.

Lemma handle_steady (e : event) (s s' : uploader * list string) :
  steady s -> handle e s = Some s' -> steady s'.
Proof.
  destruct s as [st readers]. intros [U [P R]]. cbn [fst snd] in U, P, R.
  destruct e as [files|names|file content|file]; cbn [handle].
  - unfold onDrop. destruct files as [|file others].
    + intros E. injection E as <-. repeat split; cbn; try discriminate.
      intros f Hf. rewrite app_nil_r in Hf. now apply R.
    + unfold fileSchema_parse.
      destruct (fileSchema_refine file) eqn:A; intros E; injection E as <-;
        repeat split; cbn; try discriminate.
      * intros _ N. now apply app_eq_nil in N as [_ N].
      * intros f Hf. apply in_app_iff in Hf.
        destruct Hf as [Hf | [<- | []]]; [now apply R | exact A].
      * intros f Hf. rewrite app_nil_r in Hf. now apply R.
  - intros E. injection E as <-. unfold onDropRejected.
    destruct names; repeat split; cbn; try discriminate; exact R.
  - destruct (take_reader file readers) as [rest|] eqn:T; [|discriminate].
    intros E. injection E as <-. unfold reader_onload.
    destruct (if endsWith file ".csv" then Some (parseCsv content)
              else if endsWith file ".xml" then parseXml content
                   else Some []);
      repeat split; cbn; try discriminate; try exact U;
      intros f Hf; apply R; now apply (take_reader_In file readers rest).
  - destruct (take_reader file readers) as [rest|] eqn:T; [|discriminate].
    intros E. injection E as <-.
    repeat split; cbn; try discriminate; try exact U.
    intros f Hf. apply R. now apply (take_reader_In file readers rest).
Qed.

Lemma run_steady (events : list event) (s s' : uploader * list string) :
  steady s -> run events s = Some s' -> steady s'.
Proof.
  revert s. induction events as [|e events IH]; intros s I; cbn [run].
  - intros E. now injection E as <-.
  - destruct (handle e s) as [s1|] eqn:H; [|discriminate].
    apply IH. now apply (handle_steady e s).
Qed.

(** X15: whatever the drops and the readers' answers since the
    component was mounted, it never shows the upload status (no handler
    sets one), it shows [Processing... Please wait.] only while a reader
    that [onDrop] started has not answered yet, and a reader is only
    ever started on a name that [fileSchema] accepts. *)
Theorem uploader_never_shows_status_nor_hangs
    (events : list event) (st : uploader) (readers : list string) :
  run events (initial, []) = Some (st, readers) ->
  (forall text, ~ In (Status text) (render st))
  /\ (In Processing (render st) -> readers <> [])
  /\ (forall file, In file readers -> fileSchema_refine file = true).
Proof.
  intros E.
  assert (I : steady (initial, [])).
  { repeat split; cbn; try discriminate. intros file []. }
  destruct (run_steady events _ _ I E) as [U [P R]]. cbn [fst snd] in U, P, R.
  split; [now apply render_without_status|]. split; [|exact R].
  intros H. apply P. now apply render_processing.
Qed.

(** X16: [reader.onload] does not look at which file is the current
    one.  When a second accepted file is dropped before the reader of
    the first has answered, the answer of the first reader is shown
    under the name of the second file: the report of the first file's
    text, parsed by the first file's suffix, with the second reader
    still to answer. *)
Theorem stale_reader_shows_under_new_name
    (first second content : string) :
  fileSchema_refine first = true -> fileSchema_refine second = true ->
  exists st,
    run [Drop [first]; Drop [second]; Load first content] (initial, [])
    = Some (st, [second])
    /\ uploadedFileName st = Some second
    /\ isProcessing st = false
    /\ (endsWith first ".csv" = true ->
        errorRecords st = Some (parseCsv content))
    /\ (endsWith first ".csv" = false -> endsWith first ".xml" = true ->
        errorRecords st = parseXml content).
Proof.
  intros A1 A2. cbn [run]. unfold handle at 1.
  rewrite (onDrop_accepted first [] initial A1). cbn [app].
  unfold handle at 1. rewrite (onDrop_accepted second [] _ A2).
  cbn [app handle take_reader]. rewrite String.eqb_refl.
  eexists. split; [reflexivity|].
  unfold reader_onload.
  destruct (endsWith first ".csv") eqn:C.
  - cbn. repeat split; intros; discriminate.
  - destruct (endsWith first ".xml") eqn:X.
    + destruct (parseXml content); cbn; repeat split; intros; discriminate.
    + cbn. repeat split; intros; discriminate.
Qed.

(** ** Whole numbers in [validateEndBalance]

    An integer below 2^53 in magnitude is a binary64 value: its
    mantissa is the integer shifted to 53 bits.  Sums of such values
    are exact as long as the sum stays below 2^53. *)

Lemma iter_pos_nat {A : Type} (f : A -> A) (p : positive) (x : A) :
  iter_pos f p x = Nat.iter (Pos.to_nat p) f x.
Proof.
  revert x. induction p as [p IH|p IH|]; intros x; simpl iter_pos.
  - rewrite !IH, Pos2Nat.inj_xI.
    replace (S (2 * Pos.to_nat p)) with (Pos.to_nat p + S (Pos.to_nat p))%nat by lia.
    now rewrite Nat.iter_add, Nat.iter_succ_r.
  - rewrite !IH, Pos2Nat.inj_xO.
    replace (2 * Pos.to_nat p)%nat with (Pos.to_nat p + Pos.to_nat p)%nat by lia.
    now rewrite Nat.iter_add.
  - reflexivity.
Qed.

Lemma Zpos_shift (n : positive) (j : nat) :
  Zpos (Nat.iter j xO n) = (Zpos n * 2 ^ Z.of_nat j)%Z.
Proof.
  induction j as [|j IH].
  - simpl. lia.
  - rewrite Nat.iter_succ, Pos2Z.inj_xO, IH, Nat2Z.inj_succ, Z.pow_succ_r; lia.
Qed.

Lemma digits_shift (n : positive) (j : nat) :
  Zpos (digits2_pos (Nat.iter j xO n))
  = (Zpos (digits2_pos n) + Z.of_nat j)%Z.
Proof.
  induction j as [|j IH].
  - simpl. lia.
  - rewrite Nat.iter_succ. cbn [digits2_pos]. rewrite Pos2Z.inj_succ, IH. lia.
Qed.

Lemma digits_lower (n : positive) :
  (2 ^ (Zpos (digits2_pos n) - 1) <= Zpos n)%Z.
Proof.
  induction n as [n IH|n IH|]; cbn [digits2_pos].
  - rewrite Pos2Z.inj_succ.
    replace (Z.succ (Zpos (digits2_pos n)) - 1)%Z
      with (Z.succ (Zpos (digits2_pos n) - 1)) by lia.
    rewrite Z.pow_succ_r by lia. lia.
  - rewrite Pos2Z.inj_succ.
    replace (Z.succ (Zpos (digits2_pos n)) - 1)%Z
      with (Z.succ (Zpos (digits2_pos n) - 1)) by lia.
    rewrite Z.pow_succ_r by lia. lia.
  - simpl. lia.
Qed.

Lemma digits_bound (n : positive) :
  (Zpos n < 2 ^ 53)%Z -> (Zpos (digits2_pos n) <= 53)%Z.
Proof.
  intros H. pose proof (digits_lower n) as L.
  destruct (Z.le_gt_cases (Zpos (digits2_pos n)) 53) as [|G]; [assumption|].
  exfalso.
  assert (2 ^ 53 <= 2 ^ (Zpos (digits2_pos n) - 1))%Z
    by (apply Z.pow_le_mono_r; lia).
  lia.
Qed.

Lemma shr_shift (n : positive) (j : nat) :
  Nat.iter j shr_1
    {| shr_m := Zpos (Nat.iter j xO n); shr_r := false; shr_s := false |}
  = {| shr_m := Zpos n; shr_r := false; shr_s := false |}.
Proof.
  induction j as [|j IH]; [reflexivity|].
  rewrite Nat.iter_succ_r, Nat.iter_succ. exact IH.
Qed.

Lemma binary_round_aux_canonical (s : bool) (m : positive) (e : Z) :
  Zpos (digits2_pos m) = 53%Z -> (-1074 <= e <= 971)%Z ->
  binary_round_aux prec emax s (Zpos m) e loc_Exact = S754_finite s m e.
Proof.
  intros D E.
  assert (F : fexp prec emax (53 + e) = e).
  { unfold fexp, emin, prec, emax. lia. }
  assert (S : shr_fexp prec emax (Zpos m) e loc_Exact
              = ({| shr_m := Zpos m; shr_r := false; shr_s := false |}, e)).
  { unfold shr_fexp. cbn [Zdigits2 shr_record_of_loc]. rewrite D, F, Z.sub_diag.
    reflexivity. }
  unfold binary_round_aux. rewrite S. cbn [shr_m loc_of_shr_record round_nearest_even].
  rewrite S. cbn [shr_m].
  replace (e <=? emax - prec)%Z with true; [reflexivity|].
  symmetry. apply Z.leb_le. unfold emax, prec. lia.
Qed.

Lemma fexp_small (d : Z) : (1 <= d <= 53)%Z -> fexp prec emax d = (d - 53)%Z.
Proof. intros H. unfold fexp, emin, prec, emax. lia. Qed.

Lemma binary_round_aux_after_shift (s : bool) (m : positive) (e : Z)
  (mx : Z) (ex : Z) :
  Zpos (digits2_pos m) = 53%Z -> (-1074 <= e <= 971)%Z ->
  shr_fexp prec emax mx ex loc_Exact
  = ({| shr_m := Zpos m; shr_r := false; shr_s := false |}, e) ->
  binary_round_aux prec emax s mx ex loc_Exact = S754_finite s m e.
Proof.
  intros D E S.
  pose proof (binary_round_aux_canonical s m e D E) as C.
  unfold binary_round_aux in *. rewrite S.
  cbn [shr_m loc_of_shr_record round_nearest_even].
  assert (F : fexp prec emax (53 + e) = e).
  { unfold fexp, emin, prec, emax. lia. }
  assert (S2 : shr_fexp prec emax (Zpos m) e loc_Exact
              = ({| shr_m := Zpos m; shr_r := false; shr_s := false |}, e)).
  { unfold shr_fexp. cbn [Zdigits2 shr_record_of_loc]. rewrite D, F, Z.sub_diag.
    reflexivity. }
  rewrite S2. cbn [shr_m].
  replace (e <=? emax - prec)%Z with true; [reflexivity|].
  symmetry. apply Z.leb_le. unfold emax, prec. lia.
Qed.

Lemma binary_round_exact (s : bool) (n : positive) (K : nat) :
  (Zpos n < 2 ^ 53)%Z ->
  binary_round prec emax s (Nat.iter K xO n) (- Z.of_nat K)
  = S754_finite s
      (Nat.iter (Z.to_nat (53 - Zpos (digits2_pos n))) xO n)
      (Zpos (digits2_pos n) - 53).
Proof.
  intros B. pose proof (digits_bound n B) as D.
  set (d := Zpos (digits2_pos n)) in *.
  assert (D1 : (1 <= d)%Z) by (unfold d; lia).
  unfold binary_round.
  rewrite digits_shift. fold d.
  replace (d + Z.of_nat K + - Z.of_nat K)%Z with d by lia.
  rewrite (fexp_small d) by lia.
  unfold shl_align.
  destruct (d - 53 - - Z.of_nat K)%Z as [|p|p] eqn:E.
  - (* already canonical *)
    assert (K = Z.to_nat (53 - d)) by lia. subst K.
    replace (- Z.of_nat (Z.to_nat (53 - d)))%Z with (d - 53)%Z by lia.
    apply binary_round_aux_canonical; [|unfold d in *; lia].
    rewrite digits_shift. fold d. lia.
  - (* low zero bits are shifted out *)
    apply binary_round_aux_after_shift.
    + rewrite digits_shift. fold d. lia.
    + lia.
    + unfold shr_fexp. cbn [Zdigits2 shr_record_of_loc].
      rewrite digits_shift. fold d.
      replace (d + Z.of_nat K + - Z.of_nat K)%Z with d by lia.
      rewrite (fexp_small d) by lia. rewrite E.
      assert (HM : Nat.iter K xO n
                   = Nat.iter (Pos.to_nat p) xO
                       (Nat.iter (Z.to_nat (53 - d)) xO n)).
      { rewrite <- Nat.iter_add. f_equal. lia. }
      unfold shr. rewrite iter_pos_nat, HM, shr_shift. f_equal. lia.
  - (* shifted left to 53 bits *)
    rewrite Pos2Nat.inj_iter.
    change (nat_rect (fun _ => positive) (Nat.iter K xO n) (fun _ => xO)
              (Pos.to_nat p))
      with (Nat.iter (Pos.to_nat p) xO (Nat.iter K xO n)).
    rewrite <- Nat.iter_add.
    replace (Pos.to_nat p + K)%nat with (Z.to_nat (53 - d)) by lia.
    apply binary_round_aux_canonical; [|lia].
    rewrite digits_shift. fold d. lia.
Qed.

Lemma of_Z_pos (s : bool) (p : positive) :
  (Zpos p < 2 ^ 53)%Z ->
  binary_round prec emax s p 0
  = S754_finite s
      (Nat.iter (Z.to_nat (53 - Zpos (digits2_pos p))) xO p)
      (Zpos (digits2_pos p) - 53).
Proof. intros B. exact (binary_round_exact s p 0 B). Qed.

Lemma binary_normalize_scaled (n : Z) (K : nat) :
  (Z.abs n < 2 ^ 53)%Z ->
  binary_normalize prec emax (n * 2 ^ Z.of_nat K) (- Z.of_nat K) false
  = of_Z n.
Proof.
  intros B. unfold of_Z. destruct n as [|p|p].
  - reflexivity.
  - rewrite <- Zpos_shift. cbn [binary_normalize].
    rewrite binary_round_exact, of_Z_pos by (simpl in B; lia). reflexivity.
  - change (Zneg p) with (- Zpos p)%Z. rewrite Z.mul_opp_l, <- Zpos_shift.
    cbn [Z.opp binary_normalize].
    rewrite binary_round_exact, of_Z_pos by (simpl in B; lia). reflexivity.
Qed.

Lemma shl_align_fst (m : positive) (e e' : Z) :
  (e' <= e)%Z ->
  fst (shl_align m e e') = Nat.iter (Z.to_nat (e - e')) xO m.
Proof.
  intros H. unfold shl_align. destruct (e' - e)%Z as [|p|p] eqn:E.
  - replace (e - e')%Z with 0%Z by lia. reflexivity.
  - lia.
  - cbn [fst]. rewrite Pos2Nat.inj_iter.
    replace (Z.to_nat (e - e')) with (Pos.to_nat p) by lia. reflexivity.
Qed.

Lemma of_Z_nonzero (n : Z) :
  n <> 0%Z -> (Z.abs n < 2 ^ 53)%Z ->
  exists (j : nat) (m : positive),
    of_Z n = S754_finite (n <? 0)%Z m (- Z.of_nat j)
    /\ (j <= 52)%nat
    /\ cond_Zopp (n <? 0)%Z (Zpos m) = (n * 2 ^ Z.of_nat j)%Z.
Proof.
  intros N B. unfold of_Z. destruct n as [|p|p]; [congruence| |].
  - pose proof (digits_bound p B) as D.
    exists (Z.to_nat (53 - Zpos (digits2_pos p))), (Nat.iter (Z.to_nat (53 - Zpos (digits2_pos p))) xO p).
    cbn [binary_normalize]. rewrite of_Z_pos by assumption.
    split; [f_equal; lia|]. split; [lia|].
    cbn [Z.ltb Z.compare cond_Zopp]. apply Zpos_shift.
  - pose proof (digits_bound p B) as D.
    exists (Z.to_nat (53 - Zpos (digits2_pos p))), (Nat.iter (Z.to_nat (53 - Zpos (digits2_pos p))) xO p).
    cbn [binary_normalize]. rewrite of_Z_pos by assumption.
    split; [f_equal; lia|]. split; [lia|].
    cbn [Z.ltb Z.compare cond_Zopp]. rewrite Zpos_shift.
    change (Zneg p) with (- Zpos p)%Z. lia.
Qed.

Lemma add_of_Z (a b : Z) :
  (Z.abs a < 2 ^ 53)%Z -> (Z.abs b < 2 ^ 53)%Z -> (Z.abs (a + b) < 2 ^ 53)%Z ->
  add (of_Z a) (of_Z b) = of_Z (a + b).
Proof.
  intros Ba Bb Bs.
  destruct (Z.eq_dec a 0) as [-> | Na].
  { change (of_Z 0) with (S754_zero false). rewrite Z.add_0_l.
    unfold add. destruct (Z.eq_dec b 0) as [-> | Nb]; [reflexivity|].
    destruct (of_Z_nonzero b Nb Bb) as [j [m [-> _]]]. reflexivity. }
  destruct (Z.eq_dec b 0) as [-> | Nb].
  { change (of_Z 0) with (S754_zero false). rewrite Z.add_0_r.
    unfold add.
    destruct (of_Z_nonzero a Na Ba) as [j [m [-> _]]]. reflexivity. }
  destruct (of_Z_nonzero a Na Ba) as [ja [ma [Ea [La Va]]]].
  destruct (of_Z_nonzero b Nb Bb) as [jb [mb [Eb [Lb Vb]]]].
  rewrite Ea, Eb. unfold add. cbn [SFadd].
  set (ez := Z.min (- Z.of_nat ja) (- Z.of_nat jb)).
  set (K := Z.to_nat (- ez)).
  assert (HK : ez = (- Z.of_nat K)%Z) by (unfold K, ez; lia).
  rewrite !shl_align_fst by (unfold ez; lia).
  assert (Sa : cond_Zopp (a <? 0)%Z
                 (Zpos (Nat.iter (Z.to_nat (- Z.of_nat ja - ez)) xO ma))
               = (a * 2 ^ Z.of_nat K)%Z).
  { rewrite Zpos_shift.
    replace (Z.of_nat K) with (Z.of_nat ja + Z.of_nat (Z.to_nat (- Z.of_nat ja - ez)))%Z
      by (unfold K, ez; lia).
    rewrite Z.pow_add_r by lia. rewrite Z.mul_assoc, <- Va.
    destruct (a <? 0)%Z; cbn [cond_Zopp]; lia. }
  assert (Sb : cond_Zopp (b <? 0)%Z
                 (Zpos (Nat.iter (Z.to_nat (- Z.of_nat jb - ez)) xO mb))
               = (b * 2 ^ Z.of_nat K)%Z).
  { rewrite Zpos_shift.
    replace (Z.of_nat K) with (Z.of_nat jb + Z.of_nat (Z.to_nat (- Z.of_nat jb - ez)))%Z
      by (unfold K, ez; lia).
    rewrite Z.pow_add_r by lia. rewrite Z.mul_assoc, <- Vb.
    destruct (b <? 0)%Z; cbn [cond_Zopp]; lia. }
  rewrite Sa, Sb, <- Z.mul_add_distr_r, HK.
  now apply binary_normalize_scaled.
Qed.

Lemma hundredths_scaled (p q : Z) :
  (0 < q)%Z -> hundredths (p * q) q = (100 * p)%Z.
Proof.
  intros Q. unfold hundredths.
  replace (200 * (p * q) + q)%Z with ((200 * p + 1) * q)%Z by lia.
  rewrite Z.div_mul_cancel_r by lia.
  replace (200 * p + 1)%Z with (100 * p * 2 + 1)%Z by lia.
  rewrite Z.div_add_l by lia. change (1 / 2)%Z with 0%Z. lia.
Qed.

Lemma of_Z_rounded (n : Z) :
  (Z.abs n < 2 ^ 53)%Z ->
  below_1e21 (of_Z n) = true
  /\ rounded_hundredths (of_Z n) = ((n <? 0)%Z, (100 * Z.abs n)%Z).
Proof.
  intros B. destruct (Z.eq_dec n 0) as [-> | N]; [split; reflexivity|].
  destruct (of_Z_nonzero n N B) as [j [m [-> [L V]]]].
  assert (M : Zpos m = (Z.abs n * 2 ^ Z.of_nat j)%Z).
  { destruct (n <? 0)%Z eqn:S; cbn [cond_Zopp] in V.
    - apply Z.ltb_lt in S. rewrite Z.abs_neq by lia. lia.
    - apply Z.ltb_ge in S. rewrite Z.abs_eq by lia. lia. }
  assert (P : (0 < 2 ^ Z.of_nat j)%Z) by (apply Z.pow_pos_nonneg; lia).
  assert (R : magnitude_ratio (S754_finite (n <? 0)%Z m (- Z.of_nat j))
              = if (0 <=? - Z.of_nat j)%Z
                then (Zpos m * 2 ^ (- Z.of_nat j), 1)%Z
                else (Zpos m, 2 ^ (- - Z.of_nat j))%Z) by reflexivity.
  unfold below_1e21, rounded_hundredths. rewrite R.
  destruct (0 <=? - Z.of_nat j)%Z eqn:E.
  - apply Z.leb_le in E. assert (j = 0%nat) by lia. subst j.
    change (2 ^ (- Z.of_nat 0))%Z with 1%Z.
    change (2 ^ Z.of_nat 0)%Z with 1%Z in M.
    split.
    + apply Z.ltb_lt. assert (2 ^ 53 < 10 ^ 21)%Z by reflexivity. lia.
    + f_equal. rewrite hundredths_scaled by lia. lia.
  - rewrite Z.opp_involutive. split.
    + apply Z.ltb_lt. rewrite M.
      assert (2 ^ 53 < 10 ^ 21)%Z by reflexivity.
      apply Z.mul_lt_mono_pos_r; lia.
    + f_equal. rewrite M. now apply hundredths_scaled.
Qed.

(** X14: when the three balances are whole numbers [a], [b] and [c]
    below 2^53 in magnitude, as is their sum, the addition of
    [validateEndBalance] is exact and the comparison of the two
    [toFixed(2)] strings is the comparison of the integers: no error
    exactly when [a + b = c], and otherwise the mismatch message with
    the exact sum. *)
Theorem validateEndBalance_whole_numbers (record : object) (a b c : Z) :
  Number (get record "startBalance") = of_Z a ->
  Number (get record "mutation") = of_Z b ->
  Number (get record "endBalance") = of_Z c ->
  (Z.abs a < 2 ^ 53)%Z -> (Z.abs b < 2 ^ 53)%Z -> (Z.abs c < 2 ^ 53)%Z ->
  (Z.abs (a + b) < 2 ^ 53)%Z ->
  (validateEndBalance record = None <-> (a + b)%Z = c)
  /\ ((a + b)%Z <> c ->
      validateEndBalance record
      = Some ("Mismatching end balance: Expected: "
                ++ ToString (of_Z (a + b))
                ++ ", Received: " ++ ToString (of_Z c))%string).
Proof.
  intros Ea Eb Ec Ba Bb Bc Bs.
  assert (F : forall n, (Z.abs n < 2 ^ 53)%Z -> isNaN (of_Z n) = false).
  { intros n B. destruct (Z.eq_dec n 0) as [-> | N]; [reflexivity|].
    destruct (of_Z_nonzero n N B) as [j [m [-> _]]]. reflexivity. }
  assert (V : validateEndBalance record
              = if negb (String.eqb (toFixed2 (of_Z (a + b))) (toFixed2 (of_Z c)))
                then Some ("Mismatching end balance: Expected: "
                             ++ ToString (of_Z (a + b))
                             ++ ", Received: " ++ ToString (of_Z c))%string
                else None).
  { unfold validateEndBalance. rewrite Ea, Eb, Ec, !F by assumption.
    cbn [orb]. now rewrite add_of_Z. }
  destruct (of_Z_rounded (a + b) Bs) as [Ls Rs].
  destruct (of_Z_rounded c Bc) as [Lc Rc].
  assert (T : toFixed2 (of_Z (a + b)) = toFixed2 (of_Z c) <-> (a + b)%Z = c).
  { rewrite (toFixed2_rounded_hundredths _ _ Ls Lc), Rs, Rc. split.
    - intros E.
      assert (E1 : (a + b <? 0)%Z = (c <? 0)%Z) by exact (f_equal fst E).
      assert (E2 : (100 * Z.abs (a + b))%Z = (100 * Z.abs c)%Z)
        by exact (f_equal snd E).
      destruct (a + b <? 0)%Z eqn:S1; symmetry in E1.
      + apply Z.ltb_lt in S1, E1. lia.
      + apply Z.ltb_ge in S1, E1. lia.
    - now intros ->. }
  rewrite V. split.
  - rewrite <- T. destruct (String.eqb_spec (toFixed2 (of_Z (a + b))) (toFixed2 (of_Z c)));
      simpl; split; congruence.
  - intros D. rewrite <- T in D. apply String.eqb_neq in D. now rewrite D.
Qed.

End Pipeline.

(** ** The properties on the inputs of the tests *)

Local Open Scope list_scope.

Lemma sanitizeKeys_normalizes_and_is_idempotent_witness :
  sanitizeKeys (sanitizeKeys (hd [] mockRawInputRecords))
  = sanitizeKeys (hd [] mockRawInputRecords)
  /\ keys (sanitizeKeys (hd [] mockRawInputRecords))
     = ["reference"; "accountNumber"; "startBalance"; "mutation";
        "endBalance"; "description"]%string.
Proof.
  split.
  - apply (proj2 (proj2 (proj2 (proj2
             sanitizeKeys_normalizes_and_is_idempotent)))).
  - reflexivity.
Defined.



Lemma validateEndBalance_compares_two_decimals_witness :
  validateEndBalance mockValidAccountRecord = None
  /\ validateEndBalance mockInvalidBalanceRecord
     = Some "Mismatching end balance: Expected: 110, Received: 120"%string.
Proof.
  split.
  - apply (proj2 (proj2 (validateEndBalance_compares_two_decimals
                    mockValidAccountRecord eq_refl eq_refl eq_refl))).
    + reflexivity.
    + vm_compute. reflexivity.
    + vm_compute. reflexivity.
    + vm_compute. split; reflexivity.
  - apply (proj1 (proj2 (validateEndBalance_compares_two_decimals
                           mockInvalidBalanceRecord eq_refl eq_refl eq_refl))).
    vm_compute. discriminate.
Defined.

(** A sum below zero that rounds to zero is written [-0.00] and does
    not match an end balance of zero, though both round to zero. *)
Lemma negative_sum_rounding_to_zero :
  round_two_decimals
    (add (Number (get negativeRoundedZeroRecord "startBalance"))
         (Number (get negativeRoundedZeroRecord "mutation")))
  = round_two_decimals (Number (get negativeRoundedZeroRecord "endBalance"))
  /\ validateEndBalance negativeRoundedZeroRecord
     = Some "Mismatching end balance: Expected: -0.001, Received: 0"%string.
Proof. vm_compute. split; reflexivity. Qed.

(** A half is rounded away from zero: 0.125 and 0.375 are binary
    fractions. *)
Example toFixed2_rounds_half_up :
  toFixed2 (StringToNumber "0.125") = "0.13"%string
  /\ round_two_decimals (StringToNumber "0.125") = 13%Z
  /\ toFixed2 (StringToNumber "-0.375") = "-0.38"%string
  /\ round_two_decimals (StringToNumber "-0.375") = (-38)%Z
  /\ toFixed2 (StringToNumber "1.005") = "1.00"%string
  /\ round_two_decimals (StringToNumber "1.005") = 100%Z.
Proof. vm_compute. repeat split. Qed.

(** Infinite balances pass the guard of [validateEndBalance] and are
    compared: here they match. *)
Lemma validateEndBalance_accepts_Infinity :
  isFinite (Number (get infiniteBalanceRecord "startBalance")) = false
  /\ isFinite (Number (get infiniteBalanceRecord "endBalance")) = false
  /\ validateEndBalance infiniteBalanceRecord = None.
Proof. vm_compute. repeat split. Qed.

Lemma validateEndBalance_rejects_NaN_witness :
  isNaN (Number (get mockInvalidFormatRecord "mutation")) = true
  /\ validateEndBalance mockInvalidFormatRecord
     = Some "Invalid number format for balance or mutation."%string.
Proof.
  split; [reflexivity|].
  apply (proj1 (validateEndBalance_rejects_NaN mockInvalidFormatRecord)).
  reflexivity.
Defined.

Lemma structural_failures_are_the_whole_report_witness :
  processFile Zod.en [mockValidAccountRecord; mockInvalidFormatRecord;
                      mockValidAccountRecord] "csv"
  = [ mockInvalidFormatRecord
        ++ [("errors"%string,
             VString "Field - mutation Error - Invalid input: expected number, received NaN")] ].
Proof.
  refine (eq_trans
            (proj1 (structural_failures_are_the_whole_report Zod.en
                      [mockValidAccountRecord; mockInvalidFormatRecord;
                       mockValidAccountRecord] "csv" _)) _).
  - exists mockInvalidFormatRecord. split; [simpl; auto | reflexivity].
  - reflexivity.
Defined.

Lemma mockRawInputRecords_valid (r : object) :
  In r mockRawInputRecords -> structurally_valid Zod.en r = true.
Proof.
  intros H. simpl in H.
  destruct H as [<- | [<- | [<- | []]]]; reflexivity.
Defined.

Lemma duplicates_flag_later_occurrences_witness :
  map (fun e => get e "errors") (processFile Zod.en mockRawInputRecords "csv")
  = [ VString "Duplicate record";
      VString "Mismatching end balance: Expected: 110, Received: 120" ].
Proof.
  rewrite (proj1 (duplicates_flag_later_occurrences Zod.en
                    mockRawInputRecords "csv" mockRawInputRecords_valid)).
  reflexivity.
Defined.

Lemma duplicates_compare_raw_references_witness :
  Number (VString "1") = Number (VString "01")
  /\ Forall
       (fun e => exists msg,
            get e "errors" = VString msg
            /\ String.prefix "Duplicate record" msg = false)
       (processFile Zod.en
          [ row "1" "1001" "100" "20" "130" "first";
            row "01" "1002" "100" "20" "130" "second" ] "csv").
Proof.
  split; [reflexivity|].
  apply duplicates_compare_raw_references.
  - intros r H. simpl in H. destruct H as [<- | [<- | []]]; reflexivity.
  - intros earlier r later r' E H.
    destruct earlier as [|a [|b earlier]]; simpl in E.
    + contradiction.
    + injection E as <- <- _. destruct H as [<- | []]. reflexivity.
    + injection E as _ _ E. now destruct earlier.
Defined.

Lemma error_record_field_order_witness :
  Forall (fun e => exists rest, keys e = "reference"%string :: rest)
    (processFile Zod.en mockRawInputRecords "xml").
Proof.
  apply Forall_forall. intros e He.
  apply (proj2 (proj1 (error_record_field_order Zod.en mockRawInputRecords)
                  e He)).
  intros k Hk. vm_compute in He.
  destruct He as [<- | [<- | []]]; vm_compute in Hk;
    repeat (destruct Hk as [<- | Hk]; [reflexivity|]); contradiction.
Defined.

(** An attribute whose name is an array index comes before
    [reference] in the error record of an XML input. *)
Lemma xml_error_record_starts_with_array_index :
  map keys (processFile Zod.en [indexedAttributeRecord] "xml")
  = [["0"; "reference"; "errors"]%string]
  /\ Forall (fun e => hd_error (keys e) <> Some "reference"%string)
       (processFile Zod.en [indexedAttributeRecord] "xml").
Proof.
  split; [reflexivity|]. repeat constructor. discriminate.
Qed.

Lemma structural_errors_list_all_fields_witness :
  Zod.success
    (Zod.safeParse Zod.en accountRecordSchema
       (row "-1.5" "1001" "100" "20" "120" "negative"))
  = false.
Proof.
  apply (proj2 (proj2 (structural_errors_list_all_fields Zod.en
                         (row "-1.5" "1001" "100" "20" "120" "negative")))).
  left. reflexivity.
Defined.

(** A reference below the safe integers has two entries in the error
    string: two fields fail, and the string has three entries. *)
Lemma reference_with_two_entries :
  map fst
    (filter
       (fun f =>
          negb (Nat.eqb
                  (List.length
                     (Zod.parse_field (snd f)
                        (get unsafeReferenceRecord (fst f)))) 0))
       accountRecordSchema)
  = ["reference"; "mutation"]%string
  /\ flat_map (fun f => field_entries Zod.en f unsafeReferenceRecord)
       accountRecordSchema
     = [ "Field - reference Error - Too small: expected int to be >=-9007199254740991";
         "Field - reference Error - Too small: expected number to be >=0";
         "Field - mutation Error - Invalid input: expected number, received NaN"
       ]%string
  /\ formatZodErrors
       {| Zod.issues :=
            Zod.object_issues Zod.en accountRecordSchema unsafeReferenceRecord |}
     = "Field - reference Error - Too small: expected int to be >=-9007199254740991 | Field - reference Error - Too small: expected number to be >=0 | Field - mutation Error - Invalid input: expected number, received NaN"%string.
Proof. vm_compute. repeat split. Qed.

Lemma parseXml_without_records_witness :
  parseXml Zod.en parse_without_records "<root/>" = Some [].
Proof.
  apply (parseXml_without_records Zod.en parse_without_records "<root/>"
           (XObject [("root"%string, XPrimitive (VString ""))]) eq_refl).
  left. reflexivity.
Defined.

(** The scenarios of the tests. *)

Example formatZodErrors_mutation :
  formatZodErrors
    {| Zod.issues :=
         Zod.object_issues Zod.en accountRecordSchema mockInvalidFormatRecord |}
  = "Field - mutation Error - Invalid input: expected number, received NaN"%string.
Proof. vm_compute. reflexivity. Qed.

Example processFile_csv_rows :
  map (fun e => get e "errors")
    (processFile Zod.en
       [ row "1" "1001" "100" "20" "120" "desc_ok_1";
         row "1" "1001" "100" "20" "120" "desc_duplicate";
         row "3" "1003" "100" "10" "120" "desc_wrong_balance" ] "csv")
  = [ VString "Duplicate record";
      VString "Mismatching end balance: Expected: 110, Received: 120" ].
Proof. vm_compute. reflexivity. Qed.

Example processFile_xml_duplicate :
  map (fun e => get e "errors")
    (processFile Zod.en
       [ row "1" "1001" "100" "20" "120" "Valid record";
         row "1" "1002" "100" "20" "120" "Duplicate record" ] "xml")
  = [ VString "Duplicate record" ].
Proof. vm_compute. reflexivity. Qed.

Example reorderRecordForXml_reference_first :
  hd_error
    (keys (reorderRecordForXml
             [ ("accountNumber", VString "1001"); ("startBalance", num 100);
               ("mutation", num 20); ("endBalance", num 120);
               ("description", VString "Valid record"); ("reference", num 1) ]))
  = Some "reference"%string.
Proof. vm_compute. reflexivity. Qed.

Example string_and_number_references_differ :
  processFile Zod.en
    [ row "1" "1001" "100" "20" "120" "string";
      [ ("reference", num 1); ("accountNumber", VString "1002");
        ("startBalance", num 100); ("mutation", num 20);
        ("endBalance", num 120); ("description", VString "number") ] ] "csv"
  = [].
Proof. vm_compute. reflexivity. Qed.

Example negative_zero_rounds_apart :
  validateEndBalance
    [ ("startBalance", VString "-0.001"); ("mutation", num 0);
      ("endBalance", num 0) ]
  = Some "Mismatching end balance: Expected: -0.001, Received: 0"%string.
Proof. vm_compute. reflexivity. Qed.

Example infinite_balances_sum_to_NaN :
  validateEndBalance
    [ ("startBalance", VNumber Infinity);
      ("mutation", VNumber (S754_infinity true)); ("endBalance", num 0) ]
  = Some "Mismatching end balance: Expected: NaN, Received: 0"%string.
Proof. vm_compute. reflexivity. Qed.

Example csv_index_like_header_moves_first :
  map keys
    (processFile Zod.en [[ ("reference", VString "x"); (" 1", VString "y") ]]
       "csv")
  = [["1"; "reference"; "errors"]%string].
Proof. vm_compute. reflexivity. Qed.

(** ** The further properties on the inputs of the tests *)

Lemma referenceLastRecord_well_formed : well_formed referenceLastRecord.
Proof.
  split.
  - repeat (constructor; [simpl; intuition discriminate|]). constructor.
  - cbn [ordered referenceLastRecord]. repeat split;
      repeat (constructor; [exact I|]); constructor.
Qed.

Lemma accountRecordSchema_accepts_witness :
  Zod.success (Zod.safeParse Zod.en accountRecordSchema mockValidAccountRecord)
  = true.
Proof.
  apply (proj2 (accountRecordSchema_accepts Zod.en mockValidAccountRecord)).
  vm_compute. repeat split; eexists; reflexivity.
Defined.

Lemma empty_report_iff_file_valid_witness :
  processFile Zod.en [mockValidAccountRecord] "xml" = [].
Proof.
  apply (proj2 (empty_report_iff_file_valid Zod.en [mockValidAccountRecord]
                  "xml")).
  split.
  - intros r [<- | []]. vm_compute. reflexivity.
  - intros earlier r later E.
    destruct earlier as [|a earlier]; simpl in E.
    + injection E as <- _. vm_compute. split; reflexivity.
    + injection E as _ E. now destruct earlier.
Defined.

Lemma report_entries_carry_messages_witness :
  (List.length (processFile Zod.en mockRawInputRecords "csv")
   <= List.length mockRawInputRecords)%nat.
Proof.
  apply (proj1 (report_entries_carry_messages Zod.en mockRawInputRecords "csv")).
Defined.

Lemma reorderRecordForXml_keeps_fields_witness :
  get (reorderRecordForXml referenceLastRecord) "mutation"
  = get referenceLastRecord "mutation"
  /\ Permutation (reorderRecordForXml referenceLastRecord) referenceLastRecord.
Proof.
  destruct (reorderRecordForXml_keeps_fields referenceLastRecord
              referenceLastRecord_well_formed) as [G P].
  split; [apply G | exact P].
Defined.

Lemma reorderRecordForXml_order_and_idempotence_witness :
  reorderRecordForXml (reorderRecordForXml referenceLastRecord)
  = reorderRecordForXml referenceLastRecord.
Proof.
  apply (proj2 (reorderRecordForXml_order_and_idempotence referenceLastRecord
                  referenceLastRecord_well_formed)).
Defined.

Lemma error_record_keeps_values_witness :
  exists r,
    In r mockRawInputRecords
    /\ forall k, k <> "errors"%string ->
         get (hd [] (processFile Zod.en mockRawInputRecords "xml")) k
         = get (sanitizeKeys r) k.
Proof.
  apply (error_record_keeps_values Zod.en mockRawInputRecords "xml").
  vm_compute. left. reflexivity.
Defined.

Lemma report_messages_independent_of_type_witness :
  map (fun e => get e "errors") (processFile Zod.en mockRawInputRecords "csv")
  = map (fun e => get e "errors") (processFile Zod.en mockRawInputRecords "xml")
  /\ Forall2
       (fun x c =>
          (forall k, get x k = get c k)
          /\ Permutation (keys x)
               (if has_key "reference" c then keys c
                else "reference"%string :: keys c))
       (processFile Zod.en [withoutReferenceRecord] "xml")
       (processFile Zod.en [withoutReferenceRecord] "csv").
Proof.
  split.
  - apply (proj1 (report_messages_independent_of_type Zod.en
                    mockRawInputRecords "csv" "xml")).
  - apply (proj2 (proj2 (proj2 (report_messages_independent_of_type Zod.en
                                  [withoutReferenceRecord] "csv" "csv")))).
    discriminate.
Defined.

(** The error record of an XML record without [reference] has one field
    more than the error record of the same record in a CSV file. *)
Example xml_error_record_gains_reference :
  map keys (processFile Zod.en [withoutReferenceRecord] "csv")
  = [["accountNumber"; "startBalance"; "mutation"; "endBalance";
      "description"; "errors"]%string]
  /\ map keys (processFile Zod.en [withoutReferenceRecord] "xml")
     = [["reference"; "accountNumber"; "startBalance"; "mutation";
         "endBalance"; "description"; "errors"]%string]
  /\ map (fun e => get e "reference")
       (processFile Zod.en [withoutReferenceRecord] "xml")
     = [VUndefined].
Proof. vm_compute. repeat split. Qed.

Lemma sanitizeKeys_output_witness :
  well_formed (sanitizeKeys collidingKeysRecord)
  /\ (List.length (sanitizeKeys collidingKeysRecord)
      <= List.length collidingKeysRecord)%nat.
Proof.
  destruct (sanitizeKeys_output collidingKeysRecord) as [W [L _]].
  split; [exact W | exact L].
Defined.

Lemma validateEndBalance_symmetric_witness :
  validateEndBalance
    [ ("startBalance", VString "20.10"); ("mutation", VString "99.90");
      ("endBalance", VString "120") ]%string
  = validateEndBalance
      [ ("startBalance", VString "99.90"); ("mutation", VString "20.10");
        ("endBalance", VString "120") ]%string.
Proof.
  apply validateEndBalance_symmetric; reflexivity.
Defined.

Lemma fileSchema_by_extension_witness :
  fileSchema_refine "records.2024.CSV" = true.
Proof.
  refine (eq_trans
            (proj1 fileSchema_by_extension "records.2024"%string "CSV"%string _)
            _).
  - intros c H. simpl in H.
    destruct H as [<- | [<- | [<- | []]]]; discriminate.
  - reflexivity.
Defined.

Lemma upload_parses_by_suffix_witness :
  exists st1,
    onDrop ["records.csv"%string] initial = (st1, Some "records.csv"%string)
    /\ render (reader_onload Zod.en parse_mock_rows parse_without_records
                 error_text "records.csv" "text" st1)
       = [ UploadedFile "records.csv";
           Table (processFile Zod.en mockRawInputRecords "csv") ].
Proof.
  destruct (upload_parses_by_suffix Zod.en parse_mock_rows
              parse_without_records error_text "records.csv" "text" initial
              (or_introl eq_refl)) as [st1 [D R]].
  exists st1. split; [exact D|]. rewrite R. vm_compute. reflexivity.
Defined.

Lemma accepted_file_without_parser_witness :
  exists st1,
    onDrop ["DATA.CSV"%string] initial = (st1, Some "DATA.CSV"%string)
    /\ render (reader_onload Zod.en parse_mock_rows parse_without_records
                 error_text "DATA.CSV" "text" st1)
       = [UploadedFile "DATA.CSV"; NoErrorRecords].
Proof.
  destruct (accepted_file_without_parser Zod.en parse_mock_rows
              parse_without_records error_text "DATA.CSV" initial
              eq_refl eq_refl eq_refl) as [st1 [D R]].
  exists st1. split; [exact D | apply R].
Defined.

Lemma onDrop_resets_and_rejects_witness :
  render (fst (onDrop ["notes.txt"%string] initial))
  = [ErrorText fileSchema_message; UploadedFile "notes.txt"].
Proof.
  apply (proj2 (proj2 (proj2 onDrop_resets_and_rejects "notes.txt"%string []
                         initial eq_refl))).
Defined.

Lemma uploader_never_shows_status_nor_hangs_witness :
  ~ In Processing
      (render
         (reader_onload Zod.en parse_mock_rows parse_without_records
            error_text "records.csv" "text"
            (fst (onDrop ["records.csv"%string] initial)))).
Proof.
  intros H.
  apply (proj1 (proj2
           (uploader_never_shows_status_nor_hangs Zod.en parse_mock_rows
              parse_without_records error_text
              [Drop ["records.csv"%string]; Load "records.csv" "text"]
              _ [] eq_refl)) H).
  reflexivity.
Defined.

Lemma stale_reader_shows_under_new_name_witness :
  exists st,
    run Zod.en parse_mock_rows parse_without_records error_text
      [ Drop ["first.csv"%string]; Drop ["second.xml"%string];
        Load "first.csv" "text" ] (initial, [])
    = Some (st, ["second.xml"%string])
    /\ uploadedFileName st = Some "second.xml"%string
    /\ errorRecords st = Some (processFile Zod.en mockRawInputRecords "csv").
Proof.
  destruct (stale_reader_shows_under_new_name Zod.en parse_mock_rows
              parse_without_records error_text "first.csv" "second.xml" "text"
              eq_refl eq_refl) as [st [R [N [_ [C _]]]]].
  exists st. split; [exact R|]. split; [exact N|]. apply C. reflexivity.
Defined.

Lemma validateEndBalance_whole_numbers_witness :
  validateEndBalance (row "5" "1001" "100" "20" "120" "whole") = None
  /\ validateEndBalance mockInvalidBalanceRecord <> None.
Proof.
  split.
  - apply (proj1 (validateEndBalance_whole_numbers
                    (row "5" "1001" "100" "20" "120" "whole") 100 20 120
                    ltac:(vm_compute; reflexivity) ltac:(vm_compute; reflexivity)
                    ltac:(vm_compute; reflexivity)
                    eq_refl eq_refl eq_refl eq_refl)).
    reflexivity.
  - intros H.
    apply (proj1 (validateEndBalance_whole_numbers mockInvalidBalanceRecord
                    100 10 120
                    ltac:(vm_compute; reflexivity) ltac:(vm_compute; reflexivity)
                    ltac:(vm_compute; reflexivity)
                    eq_refl eq_refl eq_refl eq_refl)) in H.
    discriminate H.
Defined.
